(** * Legion: the pod-mutating admission webhook

    A shallow embedding of [internal/kubernetes]: the webhook transport
    ([AdmissionReviewWebhook]), the review pipeline ([PodMutator.Review]),
    the ignore predicates and the patch generator ([PodMutation.Patch]).

    Go strings and byte slices are [string]s (a nil and an empty [[]byte]
    are both [""]: the code only ever tests [len(b) == 0]).  A Go [error]
    is the text its [Error()] method returns.  The calls a run makes (a
    predicate being evaluated, the Patcher or the Reviewer being invoked,
    a log line, a recorded measurement) are events of a writer monad,
    emitted at the call sites of the source. *)

From Stdlib Require Import Ascii String DecimalString DecimalNat.
From stdpp Require Import base option list gmap strings sorting.

Open Scope string_scope.
Open Scope list_scope.

Set Warnings "-register-all".

(** ** Errors *)

Inductive result (A : Type) : Type :=
| Ok (a : A)
| Err (e : string).
Arguments Ok {A} a.
Arguments Err {A} e.

(** [errors.New(msg).Error()] and [errors.Wrap(err, msg).Error()]. *)
Definition errors_New (msg : string) : string := msg.
Definition errors_Wrap (err msg : string) : string := msg +:+ ": " +:+ err.

(** [s] occurs in [t] ([strings.Contains(t, s)]). *)
Fixpoint contains (s t : string) : bool :=
  String.prefix s t ||
  match t with
  | EmptyString => false
  | String _ t' => contains s t'
  end.

(** ** The Kubernetes object model

    The declarations of [k8s.io/apimachinery] and [k8s.io/api] are not
    among the repository's files; these records hold the fields the
    package and its tests read and write, under the names the source uses. *)

Module meta.
(** Modelled from the spec: the resource-type identifier of a review
    request (sections 3 and 6); group, version and resource as
    [resourcePod] and the comparison in [Review] use them. *)
Record GroupVersionResource : Type :=
  { gvrGroup : string; gvrVersion : string; Resource : string }.

(** Modelled from the spec: the kind of a review request (section 3). *)
Record GroupVersionKind : Type :=
  { gvkGroup : string; gvkVersion : string; Kind : string }.

(** [String()] of the two identifiers, as the log line and the tags show
    them. *)
Definition GroupVersionResource_String (r : GroupVersionResource) : string :=
  gvrGroup r +:+ "/" +:+ gvrVersion r +:+ ", Resource=" +:+ Resource r.

Definition GroupVersionKind_String (k : GroupVersionKind) : string :=
  gvkGroup k +:+ "/" +:+ gvkVersion k +:+ ", Kind=" +:+ Kind k.

Global Instance GroupVersionResource_eq_dec : EqDecision GroupVersionResource.
Proof. solve_decision. Defined.

(** Modelled from the spec: the failure reason code of a rejected
    response (section 3); [Review] uses the reasons invalid and internal
    error (section 4.4). *)
Inductive StatusReason : Type :=
| StatusReasonUnknown
| StatusReasonInvalid
| StatusReasonInternalError.

Definition StatusFailure : string := "Failure".

(** Modelled from the spec: the failure result of a rejected response, a
    reason code and a human-readable message (section 3). *)
Record Status : Type :=
  { Status_ : string; Reason : StatusReason; Message : string }.

(** Modelled from the spec: object metadata with its labels and
    annotations (section 3).  A nil Go map and an empty one are kept
    apart: [None] is nil. *)
Record ObjectMeta : Type :=
  { Name : string;
    Namespace : string;
    Labels : option (gmap string string);
    Annotations : option (gmap string string) }.

(** [m[k]] on a possibly nil [map[string]string]: the zero value when the
    key is missing. *)
Definition index (m : option (gmap string string)) (k : string) : string :=
  match m with
  | None => EmptyString
  | Some m => default EmptyString (m !! k)
  end.
End meta.

Module core.
(** Modelled from the spec: the workload specification with its container
    list, DNS policy and network mode (section 3), as far as the package
    and its tests use it. *)
Record Container : Type :=
  { Name : string;
    Image : string;
    Command : list string;
    Args : list string }.

Record PodDNSConfig : Type :=
  { Nameservers : list string }.

Record PodSpec : Type :=
  { Containers : list Container;
    DNSPolicy : string;
    HostNetwork : bool;
    DNSConfig : option PodDNSConfig }.

Record Pod : Type :=
  { ObjectMeta : meta.ObjectMeta;
    Spec : PodSpec }.

(** [p.GetAnnotations()]. *)
Definition GetAnnotations (p : Pod) : option (gmap string string) :=
  meta.Annotations (ObjectMeta p).
End core.

Module admission.
(** Modelled from the spec: the fixed patch-type tag, the review request
    (resource-type identifier, namespace, name, kind and the raw encoded
    target object) and the review response (allowed, patch, patch type,
    uid, result) of sections 3 and 6. *)
Inductive PatchType : Type :=
| PatchTypeJSONPatch.

Record AdmissionRequest : Type :=
  { UID : string;
    Kind : meta.GroupVersionKind;
    Resource : meta.GroupVersionResource;
    Name : string;
    Namespace : string;
    Object_Raw : string }.

Record AdmissionResponse : Type :=
  { rUID : string;
    Allowed : bool;
    Result : option meta.Status;
    Patch : string;
    PatchType_ : option PatchType }.

Record AdmissionReview : Type :=
  { Request : option AdmissionRequest;
    Response : option AdmissionResponse }.
End admission.

(** ** Effects *)

Definition Field : Type := string * string.

(** One event per call: of the logger (whatever its sink does with the
    entry), of [stats.Record], of the [i]-th ignore predicate, of the
    Patcher's [Patch], of the Reviewer's [Review]. *)
Inductive event : Type :=
| EvLogInfo (msg : string) (fields : list Field)
| EvLogDebug (msg : string) (fields : list Field)
| EvRecord (tags : gmap string string)
| EvIgnore (i : nat) (pod : core.Pod)
| EvPatch (pod : core.Pod)
| EvReview (ar : admission.AdmissionRequest).

Record Eff (A : Type) : Type := mkEff { value : A; trace : list event }.
Arguments mkEff {A} value trace.
Arguments value {A} _.
Arguments trace {A} _.

Global Instance Eff_ret : MRet Eff := λ A a, mkEff a [].
Global Instance Eff_bind : MBind Eff := λ A B f m,
  let r := f (value m) in mkEff (value r) (trace m ++ trace r).

Definition emit (e : event) : Eff unit := mkEff tt [e].

Definition is_EvPatch (e : event) : bool :=
  match e with EvPatch _ => true | _ => false end.
Definition is_EvReview (e : event) : bool :=
  match e with EvReview _ => true | _ => false end.

(** The predicates evaluated during a run, by their position in the chain. *)
Definition ignores_evaluated (t : list event) : list nat :=
  omap (λ e, match e with EvIgnore i _ => Some i | _ => None end) t.

(** ** Package level values *)

Definition jsonPatch : admission.PatchType := admission.PatchTypeJSONPatch.
Definition resourcePod : meta.GroupVersionResource :=
  {| meta.gvrGroup := ""; meta.gvrVersion := "v1"; meta.Resource := "pods" |}.

Definition tagResultMutated : string := "mutated".
Definition tagResultIgnored : string := "ignored".
Definition tagResultError : string := "error".

Definition TagKind : string := "kind".
Definition TagNamespace : string := "namespace".
Definition TagName : string := "name".
Definition TagResult : string := "result".

(** [checkValue] and [checkKeyName] of [go.opencensus.io/tag]: a tag value
    is at most 255 bytes long, each of them a printable ASCII character
    (32 to 126); a key name is such a value that is not empty. *)
Definition isASCII (s : string) : bool :=
  forallb (λ c, Nat.leb 32 (nat_of_ascii c) && Nat.leb (nat_of_ascii c) 126)
    (list_ascii_of_string s).

Definition checkValue (v : string) : bool :=
  Nat.leb (String.length v) 255 && isASCII v.

Definition checkKeyName (name : string) : bool :=
  negb (Nat.eqb (String.length name) 0) && Nat.leb (String.length name) 255 && isASCII name.

(** [tag.New(ctx, tag.Upsert(k, v), ...)]: the tags of [ctx] with the
    upserts applied, in order.  When a tag of [ctx] or a value to upsert
    does not pass the checks above, [tag.New] returns [ctx] itself and an
    error; the source discards the error ([tags, _ := tag.New(...)]) and
    goes on with the context returned, so only the context is kept here.
    [context.Background()], which holds no tags, is the empty map. *)
Definition tag_New (ctx : gmap string string) (mutators : list (string * string))
  : gmap string string :=
  if bool_decide (map_Forall (λ k v, checkKeyName k ∧ checkValue v) ctx)
     && forallb (λ kv, checkValue kv.2) mutators
  then foldl (λ m kv, <[kv.1 := kv.2]> m) ctx mutators
  else ctx.

(** [stats.Record(tags, MeasurePodsReviewed.M(1))]. *)
Definition stats_Record (tags : gmap string string) : Eff unit := emit (EvRecord tags).

(** A [*zap.Logger] is the fields [With] has attached to it. *)
Definition Logger : Type := list Field.
Definition zap_NewNop : Logger := [].
Definition zap_With (l : Logger) (fs : list Field) : Logger := l ++ fs.
Definition zap_String (k v : string) : Field := (k, v).
Definition zap_Error (err : string) : Field := ("error", err).
Definition log_Info (l : Logger) (msg : string) (fs : list Field) : Eff unit :=
  emit (EvLogInfo msg (l ++ fs)).
Definition log_Debug (l : Logger) (msg : string) (fs : list Field) : Eff unit :=
  emit (EvLogDebug msg (l ++ fs)).

(** ** Interfaces *)

(** A Patcher generates an RFC6902 JSON patch for the supplied pod. *)
Record Patcher : Type := { Patch : core.Pod → result string }.

(** A Reviewer reviews admission requests. *)
Record Reviewer : Type :=
  { Review : admission.AdmissionRequest → Eff (option admission.AdmissionResponse) }.

(** ** Ignore predicates *)

Definition IgnoreFunc : Type := core.Pod → bool.

Definition IgnorePodsInHostNetwork : IgnoreFunc :=
  λ p, core.HostNetwork (core.Spec p).

Definition IgnorePodsWithAnnotation (k v : string) : IgnoreFunc :=
  λ p, bool_decide (meta.index (core.GetAnnotations p) k = v).

Definition IgnorePodsWithoutAnnotation (k v : string) : IgnoreFunc :=
  λ p, bool_decide (meta.index (core.GetAnnotations p) k ≠ v).

(** ** The review pipeline *)

Record PodMutator : Type :=
  { l : Logger;
    p : Patcher;
    ignore : list IgnoreFunc }.

Definition PodMutatorOption : Type := PodMutator → PodMutator.

Definition WithLogger (lg : Logger) : PodMutatorOption :=
  λ m, {| l := lg; p := p m; ignore := ignore m |}.

Definition WithIgnoreFuncs (fn : list IgnoreFunc) : PodMutatorOption :=
  λ m, {| l := l m; p := p m; ignore := fn |}.

Definition NewPodMutator (pt : Patcher) (mo : list PodMutatorOption) : PodMutator :=
  foldl (λ m o, o m) {| l := zap_NewNop; p := pt; ignore := [] |} mo.

Definition admissionError (err : string) (reason : meta.StatusReason)
  : admission.AdmissionResponse :=
  {| admission.rUID := "";
     admission.Allowed := false;
     admission.Result :=
       Some {| meta.Status_ := meta.StatusFailure;
               meta.Reason := reason;
               meta.Message := err |};
     admission.Patch := "";
     admission.PatchType_ := None |}.

(** [for _, ignore := range fs { if ignore(pod) { hit } }; miss], the
    chain being entered at position [i]. *)
Fixpoint range_ignore {A} (fs : list IgnoreFunc) (i : nat) (pod : core.Pod)
    (hit miss : Eff A) : Eff A :=
  match fs with
  | [] => miss
  | f :: fs' =>
      emit (EvIgnore i pod) ;;
      if f pod then hit else range_ignore fs' (S i) pod hit miss
  end.

Section Review.
(** [serializer.Decode(raw, nil, &pod)] of the Kubernetes JSON serializer. *)
Variable serializer_Decode_Pod : string → result core.Pod.

Definition PodMutator_Review (m : PodMutator) (ar : admission.AdmissionRequest)
  : Eff (option admission.AdmissionResponse) :=
  let log := zap_With (l m)
    [zap_String "kind" (meta.GroupVersionKind_String (admission.Kind ar));
     zap_String "namespace" (admission.Namespace ar);
     zap_String "name" (admission.Name ar)] in
  let tags := tag_New ∅
    [(TagKind, meta.GroupVersionKind_String (admission.Kind ar));
     (TagNamespace, admission.Namespace ar);
     (TagName, admission.Name ar)] in
  if decide (admission.Resource ar ≠ resourcePod) then
    let e := "cannot review non-pod resource" in
    log_Info log e
      [zap_String "expected" (meta.GroupVersionResource_String resourcePod);
       zap_String "observed" (meta.GroupVersionResource_String (admission.Resource ar))] ;;
    let tags := tag_New tags [(TagResult, tagResultError)] in
    stats_Record tags ;;
    mret (Some (admissionError (errors_New e) meta.StatusReasonInvalid))
  else
  match serializer_Decode_Pod (admission.Object_Raw ar) with
  | Err err =>
      let e := "cannot decode object as a pod" in
      log_Info log e [zap_Error err] ;;
      let tags := tag_New tags [(TagResult, tagResultError)] in
      stats_Record tags ;;
      mret (Some (admissionError (errors_Wrap err e) meta.StatusReasonInvalid))
  | Ok pod =>
      range_ignore (ignore m) 0 pod
        (log_Info log "not mutating ignored pod" [] ;;
         let tags := tag_New tags [(TagResult, tagResultIgnored)] in
         stats_Record tags ;;
         mret (Some {| admission.rUID := "";
                       admission.Allowed := true;
                       admission.Result := None;
                       admission.Patch := "";
                       admission.PatchType_ := None |}))
        (emit (EvPatch pod) ;;
         match Patch (p m) pod with
         | Err err =>
             let e := "cannot patch pod" in
             log_Info log e [zap_Error err] ;;
             let tags := tag_New tags [(TagResult, tagResultError)] in
             stats_Record tags ;;
             mret (Some (admissionError (errors_Wrap err e) meta.StatusReasonInternalError))
         | Ok patch =>
             log_Debug log "mutated pod" [] ;;
             let tags := tag_New tags [(TagResult, tagResultMutated)] in
             stats_Record tags ;;
             mret (Some {| admission.rUID := admission.UID ar;
                           admission.Allowed := true;
                           admission.Result := None;
                           admission.Patch := patch;
                           admission.PatchType_ := Some jsonPatch |})
         end)
  end.

Definition PodMutator_Reviewer (m : PodMutator) : Reviewer :=
  {| Review := PodMutator_Review m |}.
End Review.

(** ** The webhook transport *)

Module http.
Definition StatusOK : nat := 200.
Definition StatusBadRequest : nat := 400.

(** A request is what [ioutil.ReadAll(rq.Body)] makes of its body. *)
Record Request : Type := { Body : result string }.

(** What the handler has written to its [http.ResponseWriter]. *)
Record Response : Type := { StatusCode : nat; rBody : string }.

Definition LF : string := String "010"%char EmptyString.

(** [http.Error(w, msg, code)] replies with [code] and the line [msg]. *)
Definition Error (msg : string) (code : nat) : Response :=
  {| StatusCode := code; rBody := msg +:+ LF |}.
End http.

Section Webhook.
(** [serializer.Decode(b, nil, ar)] and [serializer.Encode(ar, w)] of the
    Kubernetes JSON serializer, at type [AdmissionReview]. *)
Variable serializer_Decode_Review : string → result admission.AdmissionReview.
Variable serializer_Encode_Review : admission.AdmissionReview → string.

Definition AdmissionReviewWebhook (r : Reviewer) (rq : http.Request) : Eff http.Response :=
  match http.Body rq with
  | Err err =>
      mret (http.Error (errors_Wrap err "cannot read request body") http.StatusBadRequest)
  | Ok b =>
      if decide (String.length b = 0) then
        mret (http.Error "cannot parse empty request body" http.StatusBadRequest)
      else
        match serializer_Decode_Review b with
        | Err err =>
            mret (http.Error (errors_Wrap err "cannot decode request body as admission review")
                    http.StatusBadRequest)
        | Ok ar =>
            match admission.Request ar with
            | None =>
                mret (http.Error "admission review must contain a request" http.StatusBadRequest)
            | Some rq' =>
                emit (EvReview rq') ;;
                rsp ← Review r rq' ;
                mret {| http.StatusCode := http.StatusOK;
                        http.rBody := serializer_Encode_Review
                          {| admission.Request := None; admission.Response := rsp |} |}
            end
        end
  end.
End Webhook.

(** ** Merging a template into a pod (the library [mergo]) *)

Module mergo.
(** Modelled from the spec: the strategy of section 3 as the merge sees
    it; [WithOverride] and [WithAppendSlice] are the two options [Patch]
    passes. *)
Record Config : Type := { Overwrite : bool; AppendSlice : bool }.

Definition WithOverride (c : Config) : Config :=
  {| Overwrite := true; AppendSlice := AppendSlice c |}.
Definition WithAppendSlice (c : Config) : Config :=
  {| Overwrite := Overwrite c; AppendSlice := true |}.

(** The configuration [Merge] builds from its option arguments. *)
Definition config (opts : list (Config → Config)) : Config :=
  foldl (λ c o, o c) {| Overwrite := false; AppendSlice := false |} opts.

(** Modelled from the spec: [mergo.Merge] is not part of the repository's
    files.  Section 4.1: a field present in the template but unset in the
    original is always populated; a scalar set in both takes the
    template's value iff [Overwrite]; an unset template field changes
    nothing.  Unset is the zero value of the Go type. *)
Definition mergeString (c : Config) (dst src : string) : string :=
  if decide (src = EmptyString) then dst
  else if decide (dst = EmptyString) then src
  else if Overwrite c then src else dst.

(** Modelled from the spec: the same rule of section 4.1 for a boolean
    scalar, whose zero value is false. *)
Definition mergeBool (c : Config) (dst src : bool) : bool :=
  if negb src then dst
  else if negb dst then src
  else if Overwrite c then src else dst.

(** Modelled from the spec: section 4.1 on sequence fields.  With
    [AppendSlice] the template's elements are appended after the
    original's, nothing being removed; otherwise the template replaces a
    set sequence wholesale iff [Overwrite]. *)
Definition mergeSlice {A} (c : Config) (dst src : list A) : list A :=
  if AppendSlice c then dst ++ src
  else match src, dst with
       | [], _ => dst
       | _, [] => src
       | _, _ => if Overwrite c then src else dst
       end.

(** Modelled from the spec: section 4.1 on maps, merged entry by entry.
    An entry of the template whose key the original lacks is added; an
    entry set in both takes the template's value iff [Overwrite]. *)
Definition mergeEntry (c : Config) (dst src : string) : option string :=
  Some (if Overwrite c then src else dst).

(** Modelled from the spec: section 4.1, a map present in the template but
    unset (nil) in the original is populated; otherwise the two maps are
    merged entry by entry. *)
Definition mergeMap (c : Config) (dst src : option (gmap string string))
  : option (gmap string string) :=
  match src with
  | None => dst
  | Some s => Some (union_with (mergeEntry c) (default ∅ dst) s)
  end.

(** Modelled from the spec: section 4.1, nested objects are merged field
    by field.  Both arguments have the same Go type, so no field can be
    of an incompatible type and the merge cannot fail. *)
Definition merge_PodDNSConfig (c : Config) (dst src : core.PodDNSConfig)
  : core.PodDNSConfig :=
  {| core.Nameservers := mergeSlice c (core.Nameservers dst) (core.Nameservers src) |}.

(** Modelled from the spec: section 4.1 for an optional nested object: an
    unset original is populated, two set objects are merged by [f]. *)
Definition mergePtr {A} (f : A → A → A) (dst src : option A) : option A :=
  match src, dst with
  | None, _ => dst
  | Some s, None => Some s
  | Some s, Some d => Some (f d s)
  end.

(** Modelled from the spec: [mergo.Merge(&dst, src, opts...)] at the two
    types [Patch] calls it with, each field merged by the rule of its
    kind (section 4.1). *)
Definition Merge_ObjectMeta (dst src : meta.ObjectMeta) (opts : list (Config → Config))
  : result meta.ObjectMeta :=
  let c := config opts in
  Ok {| meta.Name := mergeString c (meta.Name dst) (meta.Name src);
        meta.Namespace := mergeString c (meta.Namespace dst) (meta.Namespace src);
        meta.Labels := mergeMap c (meta.Labels dst) (meta.Labels src);
        meta.Annotations := mergeMap c (meta.Annotations dst) (meta.Annotations src) |}.

Definition Merge_PodSpec (dst src : core.PodSpec) (opts : list (Config → Config))
  : result core.PodSpec :=
  let c := config opts in
  Ok {| core.Containers := mergeSlice c (core.Containers dst) (core.Containers src);
        core.DNSPolicy := mergeString c (core.DNSPolicy dst) (core.DNSPolicy src);
        core.HostNetwork := mergeBool c (core.HostNetwork dst) (core.HostNetwork src);
        core.DNSConfig :=
          mergePtr (merge_PodDNSConfig c) (core.DNSConfig dst) (core.DNSConfig src) |}.
End mergo.

(** ** JSON documents *)

Inductive json : Type :=
| JNull
| JBool (b : bool)
| JString (s : string)
| JArray (l : list json)
| JObject (fs : list (string * json)).

(** [m[k]] on a decoded JSON object. *)
Fixpoint field (k : string) (fs : list (string * json)) : option json :=
  match fs with
  | [] => None
  | (k', v) :: fs' => if decide (k = k') then Some v else field k fs'
  end.

(** A decoded object is a Go map: no key occurs twice. *)
Inductive wf_json : json → Prop :=
| wf_JNull : wf_json JNull
| wf_JBool b : wf_json (JBool b)
| wf_JString s : wf_json (JString s)
| wf_JArray l : Forall wf_json l → wf_json (JArray l)
| wf_JObject fs :
    NoDup (fs.*1) → Forall (λ kv, wf_json kv.2) fs → wf_json (JObject fs).

(** ** The JSON form of a pod (the Kubernetes serializer)

    Modelled from the spec: the object model's serializer is an external
    collaborator (section 6), used through [encode(Object) -> bytes]; it
    writes the canonical structured form of section 4.2.  Field names are
    the JSON names of the Kubernetes API; a field holding its zero value
    is left out, but for [containers] and a container's [name] and
    [resources], as the expected bytes of [TestPatch] show. *)

Definition omitempty_string (k v : string) : list (string * json) :=
  if decide (v = EmptyString) then [] else [(k, JString v)].

Definition omitempty_bool (k : string) (b : bool) : list (string * json) :=
  if b then [(k, JBool true)] else [].

Definition omitempty_strings (k : string) (l : list string) : list (string * json) :=
  match l with
  | [] => []
  | _ => [(k, JArray (JString <$> l))]
  end.

Definition omitempty_map (k : string) (m : option (gmap string string))
  : list (string * json) :=
  match m with
  | None => []
  | Some m =>
      if decide (m = ∅) then []
      else [(k, JObject (prod_map id JString <$> map_to_list m))]
  end.

Definition encode_Container (c : core.Container) : json :=
  JObject ([("name", JString (core.Name c))]
           ++ omitempty_string "image" (core.Image c)
           ++ omitempty_strings "command" (core.Command c)
           ++ omitempty_strings "args" (core.Args c)
           ++ [("resources", JObject [])]).

Definition encode_PodDNSConfig (c : core.PodDNSConfig) : json :=
  JObject (omitempty_strings "nameservers" (core.Nameservers c)).

Definition encode_PodSpec (s : core.PodSpec) : json :=
  JObject ([("containers",
             match core.Containers s with
             | [] => JNull
             | cs => JArray (encode_Container <$> cs)
             end)]
           ++ omitempty_string "dnsPolicy" (core.DNSPolicy s)
           ++ omitempty_bool "hostNetwork" (core.HostNetwork s)
           ++ match core.DNSConfig s with
              | None => []
              | Some c => [("dnsConfig", encode_PodDNSConfig c)]
              end).

Definition encode_ObjectMeta (o : meta.ObjectMeta) : json :=
  JObject (omitempty_string "name" (meta.Name o)
           ++ omitempty_string "namespace" (meta.Namespace o)
           ++ omitempty_map "labels" (meta.Labels o)
           ++ omitempty_map "annotations" (meta.Annotations o)).

Definition encode_Pod (p : core.Pod) : json :=
  JObject [("metadata", encode_ObjectMeta (core.ObjectMeta p));
           ("spec", encode_PodSpec (core.Spec p))].

(** [serializer.Encode(&pod, buf)]: the buffer is kept as the JSON document
    it holds, the only reader of the bytes being [json.Unmarshal] inside
    [jsonpatch.CreatePatch]. *)
Definition serializer_Encode_Pod (p : core.Pod) : result json := Ok (encode_Pod p).

(** ** JSON patches (the diff of section 4.2)

    The definitions of this module follow the words of section 4.2.  What
    the library the package links does is in the module [appscode] further
    down; the two differ on arrays of strings and on a member that was
    [null]. *)

Module jsonpatch.
(** Modelled from the spec: a patch operation [{op, path, value?}]
    (section 3). *)
Record Operation : Type :=
  { Operation_ : string;          (* json:"op" *)
    Path : string;                (* json:"path" *)
    Value : option json }.        (* json:"value,omitempty" *)

Definition NewPatch (op path : string) (value : option json) : Operation :=
  {| Operation_ := op; Path := path; Value := value |}.

(** Modelled from the spec: paths are JSON-Pointer strings (section 3).
    In a reference token (RFC 6901) [~] and [/] are written [~0] and
    [~1]. *)
Fixpoint rfc6901Encode (s : string) : string :=
  match s with
  | EmptyString => EmptyString
  | String c s' =>
      if decide (c = "~"%char) then String "~" (String "0" (rfc6901Encode s'))
      else if decide (c = "/"%char) then String "~" (String "1" (rfc6901Encode s'))
      else String c (rfc6901Encode s')
  end.

Definition itoa (n : nat) : string := NilEmpty.string_of_uint (Nat.to_uint n).

Definition makePath (path key : string) : string :=
  path +:+ "/" +:+ rfc6901Encode key.
Definition makeIndex (path : string) (i : nat) : string :=
  path +:+ "/" +:+ itoa i.

(** Modelled from the spec: appended elements get [add] operations at the
    trailing indexes (section 4.2): the elements [l], from index [i] on. *)
Fixpoint adds_from (p : string) (l : list json) (i : nat) : list Operation :=
  match l with
  | [] => []
  | b :: l' => NewPatch "add" (makeIndex p i) (Some b) :: adds_from p l' (S i)
  end.

Section diff.
Variable diff_value : json → json → string → list Operation.
Variable p : string.

(** Modelled from the spec: array elements are addressed by positional
    index (section 4.2); the arrays are compared from index [i] on. *)
Fixpoint diff_array (la lb : list json) (i : nat) {struct la} : list Operation :=
  match la, lb with
  | [], _ => adds_from p lb i
  | _ :: la', [] =>
      NewPatch "remove" (makeIndex p i) None :: diff_array la' [] (S i)
  | a' :: la', b' :: lb' =>
      diff_value a' b' (makeIndex p i) ++ diff_array la' lb' (S i)
  end.

(** Modelled from the spec: section 4.2 for the members [fs] of [before],
    each against the member of [after] (the object [fb]) under the same
    key: [remove] when [after] lacks the key. *)
Fixpoint diff_fields (fb fs : list (string * json)) {struct fs} : list Operation :=
  match fs with
  | [] => []
  | (k, av) :: fs' =>
      match field k fb with
      | None => [NewPatch "remove" (makePath p k) None]
      | Some bv => diff_value av bv (makePath p k)
      end ++ diff_fields fb fs'
  end.

(** Modelled from the spec: section 4.2, [add] for the members of [after]
    (the object [fb]) that [before] (the object [fa]) lacks. *)
Definition added_fields (fa fb : list (string * json)) : list Operation :=
  flat_map (λ kv, match field kv.1 fa with
                  | None => [NewPatch "add" (makePath p kv.1) (Some kv.2)]
                  | Some _ => []
                  end) fb.
End diff.

(** Modelled from the spec: [jsonpatch.CreatePatch] is not part of the
    repository's files.  Section 4.2: [add] for newly present paths,
    [replace] for changed leaf values at existing paths, [remove] for
    paths of [before] that [after] lacks; array elements are addressed by
    positional index and appended elements get [add] operations at the
    trailing indexes; equal documents give no operation. *)
Fixpoint diff_value (a b : json) (p : string) {struct a} : list Operation :=
  match a, b with
  | JNull, JNull => []
  | JBool x, JBool y =>
      if decide (x = y) then [] else [NewPatch "replace" p (Some b)]
  | JString x, JString y =>
      if decide (x = y) then [] else [NewPatch "replace" p (Some b)]
  | JArray la, JArray lb => diff_array diff_value p la lb 0
  | JObject fa, JObject fb => diff_fields diff_value p fb fa ++ added_fields p fa fb
  | _, _ => [NewPatch "replace" p (Some b)]
  end.

Definition errBadJSONDoc : string := "Invalid JSON Document".

(** Modelled from the spec: [diff(before, after)] of section 4.2 on two
    encoded objects.  Go ranges over a map in an order that changes from
    run to run, so the order in which the operations are emitted is not a
    function of the two documents (the reason section 4.2 asks for the
    sort): [emission] is the order of one run. *)
Definition CreatePatch (emission : list Operation → list Operation) (a b : json)
  : result (list Operation) :=
  match a, b with
  | JObject _, JObject _ => Ok (emission (diff_value a b EmptyString))
  | _, _ => Err errBadJSONDoc
  end.

(** Modelled from the spec: the lexical path order of section 4.2, as
    [Less] of [jsonpatch.ByPath]: the paths compared as Go strings, byte
    by byte. *)
Definition ByPath_Less (a b : Operation) : bool := String.ltb (Path a) (Path b).
End jsonpatch.

(** [sort.Sort(data)] of the Go library, which consults [data] through
    [Less] alone: insertion into the sorted prefix, left to right.  The
    properties below use only that the outcome is a permutation in
    ascending order, which any sort gives. *)
Fixpoint sort_insert {A} (less : A → A → bool) (x : A) (l : list A) : list A :=
  match l with
  | [] => [x]
  | y :: l' => if less x y then x :: y :: l' else y :: sort_insert less x l'
  end.

Definition sort_Sort {A} (less : A → A → bool) (l : list A) : list A :=
  foldl (λ acc x, sort_insert less x acc) [] l.

(** ** Encoding a patch ([encoding/json])

    Modelled from the spec: the sequence is encoded as one payload in
    structured-array encoding (section 4.2); the text is that of
    [json.Marshal], as the expected bytes of [TestPatch] show.  The text
    the library's own [Operation.MarshalJSON] writes, which
    [encoding/json] may refuse, is [appscode.MarshalJSON]. *)

Definition DQ : ascii := "034"%char.

Definition hex_digit (n : nat) : ascii :=
  default "0"%char (String.get n "0123456789abcdef").

(** How [json.Marshal] writes one byte of a string: the quote and the
    backslash are escaped, control characters and [<], [>], [&] are
    written as [\u00XX]. *)
Definition json_escape (c : ascii) : string :=
  let n := nat_of_ascii c in
  if decide (c = DQ) then String "\" (String DQ EmptyString)
  else if decide (c = "\"%char) then "\\"
  else if decide (n = 10) then "\n"
  else if decide (n = 13) then "\r"
  else if decide (n = 9) then "\t"
  else if decide (n < 32 ∨ c = "<"%char ∨ c = ">"%char ∨ c = "&"%char)
       then "\u00" +:+ String (hex_digit (n / 16)) (String (hex_digit (n mod 16)) EmptyString)
  else String c EmptyString.

Fixpoint json_escape_string (s : string) : string :=
  match s with
  | EmptyString => EmptyString
  | String c s' => json_escape c +:+ json_escape_string s'
  end.

Definition json_quote (s : string) : string :=
  String DQ (json_escape_string s) +:+ String DQ EmptyString.

(** [strings.Join(l, sep)]. *)
Fixpoint strings_Join (l : list string) (sep : string) : string :=
  match l with
  | [] => EmptyString
  | [x] => x
  | x :: l' => x +:+ sep +:+ strings_Join l' sep
  end.

(** A decoded object is a Go map, which [json.Marshal] writes with its
    keys sorted. *)
Fixpoint marshal_value (j : json) : string :=
  match j with
  | JNull => "null"
  | JBool true => "true"
  | JBool false => "false"
  | JString s => json_quote s
  | JArray l => "[" +:+ strings_Join (map marshal_value l) "," +:+ "]"
  | JObject fs =>
      let members := map (λ kv : string * json, (kv.1, marshal_value kv.2)) fs in
      let sorted := sort_Sort (λ x y : string * string, String.ltb x.1 y.1) members in
      "{" +:+ strings_Join (map (λ kt : string * string, json_quote kt.1 +:+ ":" +:+ kt.2) sorted) ","
          +:+ "}"
  end.

Definition marshal_Operation (o : jsonpatch.Operation) : string :=
  "{" +:+ json_quote "op" +:+ ":" +:+ json_quote (jsonpatch.Operation_ o)
      +:+ "," +:+ json_quote "path" +:+ ":" +:+ json_quote (jsonpatch.Path o)
      +:+ match jsonpatch.Value o with
          | None | Some JNull => EmptyString
          | Some v => "," +:+ json_quote "value" +:+ ":" +:+ marshal_value v
          end
      +:+ "}".

(** [json.Marshal(patch)] for a non-nil [[]jsonpatch.Operation]. *)
Definition json_Marshal (patch : list jsonpatch.Operation) : result string :=
  Ok ("[" +:+ strings_Join (map marshal_Operation patch) "," +:+ "]").

(** ** The mutation and its patch *)

Record PodMutationStrategy : Type :=
  { Overwrite : bool;   (* Overwrite keys that are already set in the original pod. *)
    Append : bool }.    (* Append to, rather than replacing, arrays in the original pod. *)

Record PodMutationTemplate : Type :=
  { Template_ObjectMeta : meta.ObjectMeta;
    Template_Spec : core.PodSpec }.

Record PodMutationSpec : Type :=
  { Strategy : PodMutationStrategy;
    Template : PodMutationTemplate }.

Record PodMutation : Type :=
  { PodMutation_ObjectMeta : meta.ObjectMeta;
    Spec : PodMutationSpec }.

(** The options [Patch] hands to [mergo.Merge]. *)
Definition merge_options (s : PodMutationStrategy) : list (mergo.Config → mergo.Config) :=
  let mo := [] in
  let mo := if Overwrite s then mo ++ [mergo.WithOverride] else mo in
  let mo := if Append s then mo ++ [mergo.WithAppendSlice] else mo in
  mo.

(** The first half of [Patch]: the value of [injected] once the template's
    metadata and spec have been merged into the copy of the original. *)
Definition PodMutation_inject (m : PodMutation) (original : core.Pod) : result core.Pod :=
  let injected := original in   (* original.DeepCopyInto(&injected) *)
  let mo := merge_options (Strategy (Spec m)) in
  match mergo.Merge_ObjectMeta (core.ObjectMeta injected)
          (Template_ObjectMeta (Template (Spec m))) mo with
  | Err err => Err (errors_Wrap err "cannot inject pod metadata")
  | Ok om =>
      match mergo.Merge_PodSpec (core.Spec injected)
              (Template_Spec (Template (Spec m))) mo with
      | Err err => Err (errors_Wrap err "cannot inject pod spec")
      | Ok sp => Ok {| core.ObjectMeta := om; core.Spec := sp |}
      end
  end.

Section Patch.
(** The order in which one run of [jsonpatch.CreatePatch] emits its
    operations. *)
Variable emission : list jsonpatch.Operation → list jsonpatch.Operation.

(** Patch generates an RFC 6902 JSON patch for the supplied pod. *)
Definition PodMutation_Patch (m : PodMutation) (original : core.Pod) : result string :=
  match PodMutation_inject m original with
  | Err err => Err err
  | Ok injected =>
      match serializer_Encode_Pod original with
      | Err err => Err (errors_Wrap err "cannot encode original pod as JSON")
      | Ok ob =>
          match serializer_Encode_Pod injected with
          | Err err => Err (errors_Wrap err "cannot encode patched pod as JSON")
          | Ok pb =>
              match jsonpatch.CreatePatch emission ob pb with
              | Err err => Err (errors_Wrap err "cannot create patch")
              | Ok patch =>
                  let patch := sort_Sort jsonpatch.ByPath_Less patch in
                  match json_Marshal patch with
                  | Err err => Err (errors_Wrap err "cannot encode patch as JSON")
                  | Ok b => Ok b
                  end
              end
          end
      end
  end.

Definition PodMutation_Patcher (m : PodMutation) : Patcher :=
  {| Patch := PodMutation_Patch m |}.
End Patch.

(** ** The earlier revision of the mutation (the second listing of the
    source file), whose [Patch] carries the note
    [TODO(negz): Sort patch before marshalling it.] *)

Module Prior.
Record MutationStrategy : Type :=
  { Overwrite : bool;
    Append : bool }.

Record PodMutation : Type :=
  { ObjectMeta : meta.ObjectMeta;
    Spec : core.PodSpec;
    Strategy : MutationStrategy }.

Definition Patch (emission : list jsonpatch.Operation → list jsonpatch.Operation)
    (m : PodMutation) (original : core.Pod) : result string :=
  let injected := original in
  let mo := [] in
  let mo := if Overwrite (Strategy m) then mo ++ [mergo.WithOverride] else mo in
  let mo := if Append (Strategy m) then mo ++ [mergo.WithAppendSlice] else mo in
  match mergo.Merge_ObjectMeta (core.ObjectMeta injected) (ObjectMeta m) mo with
  | Err err => Err (errors_Wrap err "cannot inject pod metadata")
  | Ok om =>
  match mergo.Merge_PodSpec (core.Spec injected) (Spec m) mo with
  | Err err => Err (errors_Wrap err "cannot inject pod spec")
  | Ok sp =>
  let injected := {| core.ObjectMeta := om; core.Spec := sp |} in
  match serializer_Encode_Pod original with
  | Err err => Err (errors_Wrap err "cannot encode original pod as JSON")
  | Ok ob =>
  match serializer_Encode_Pod injected with
  | Err err => Err (errors_Wrap err "cannot encode patched pod as JSON")
  | Ok pb =>
  match jsonpatch.CreatePatch emission ob pb with
  | Err err => Err (errors_Wrap err "cannot create patch")
  | Ok patch =>
  match json_Marshal patch with
  | Err err => Err (errors_Wrap err "cannot encode patch as JSON")
  | Ok b => Ok b
  end end end end end end.
End Prior.

(** ** The pods and mutations of the package's tests *)

Definition coolPod : core.Pod :=
  {| core.ObjectMeta :=
       {| meta.Name := "coolpod";
          meta.Namespace := "coolnamespace";
          meta.Labels := Some {["cool" := "true"]};
          meta.Annotations := Some {["cool" := "true"]} |};
     core.Spec :=
       {| core.Containers :=
            [{| core.Name := "coolcontainer";
                core.Image := "coolimage:coolest";
                core.Command := ["/cool"];
                core.Args := ["-very"] |}];
          core.DNSPolicy := "ClusterFirst";
          core.HostNetwork := false;
          core.DNSConfig := None |} |}.

Definition emptyObjectMeta : meta.ObjectMeta :=
  {| meta.Name := EmptyString; meta.Namespace := EmptyString;
     meta.Labels := None; meta.Annotations := None |}.

Definition emptyPodSpec : core.PodSpec :=
  {| core.Containers := []; core.DNSPolicy := EmptyString;
     core.HostNetwork := false; core.DNSConfig := None |}.

Definition mutation (overwrite append : bool) (om : meta.ObjectMeta) (sp : core.PodSpec)
  : PodMutation :=
  {| PodMutation_ObjectMeta := emptyObjectMeta;
     Spec := {| Strategy := {| Overwrite := overwrite; Append := append |};
                Template := {| Template_ObjectMeta := om; Template_Spec := sp |} |} |}.

(** [PodMutation{}]. *)
Definition emptyPodMutation : PodMutation :=
  mutation false false emptyObjectMeta emptyPodSpec.

(** Writes [s] with each apostrophe turned into a double quote. *)
Fixpoint dq (s : string) : string :=
  match s with
  | EmptyString => EmptyString
  | String c s' => String (if decide (c = "'"%char) then DQ else c) (dq s')
  end.

(** ** Vocabulary of the properties *)

(** The annotation a pod carries under key [k], if any. *)
Definition pod_annotation (pod : core.Pod) (k : string) : option string :=
  core.GetAnnotations pod ≫= (λ m, m !! k).

(** [core.Pod{}]. *)
Definition barePod : core.Pod :=
  {| core.ObjectMeta := emptyObjectMeta; core.Spec := emptyPodSpec |}.

(** The events of evaluating the predicates at positions [i .. i+n-1]. *)
Definition ignore_events (i n : nat) (pod : core.Pod) : list event :=
  (λ j, EvIgnore j pod) <$> seq i n.

(** Position and value of the first predicate of a chain that matches. *)
Definition first_match (fs : list IgnoreFunc) (pod : core.Pod) : option (nat * IgnoreFunc) :=
  list_find (λ g, g pod = true) fs.

(** The three shapes of a review response. *)
Definition allowed_unmodified (r : admission.AdmissionResponse) : Prop :=
  admission.Allowed r = true ∧ admission.Patch r = EmptyString ∧
  admission.PatchType_ r = None ∧ admission.Result r = None.

Definition allowed_with_patch (r : admission.AdmissionResponse) : Prop :=
  admission.Allowed r = true ∧ admission.PatchType_ r = Some admission.PatchTypeJSONPatch ∧
  admission.Result r = None.

Definition rejected (r : admission.AdmissionResponse) : Prop :=
  admission.Allowed r = false ∧
  (∃ reason msg, admission.Result r =
     Some {| meta.Status_ := meta.StatusFailure; meta.Reason := reason; meta.Message := msg |}) ∧
  admission.Patch r = EmptyString ∧ admission.PatchType_ r = None.

(** The message names a resource kind: the kind's name occurs in it. *)
Definition names_kind (msg : string) (r : meta.GroupVersionResource) : Prop :=
  contains (meta.Resource r) msg = true.

(** A patcher that always fails, and one that answers fixed bytes. *)
Definition failingPatcher (err : string) : Patcher := {| Patch := λ _, Err err |}.
Definition predictablePatcher (patch : string) : Patcher := {| Patch := λ _, Ok patch |}.

(** A request for the resource [configmaps]. *)
Definition configmapRequest : admission.AdmissionRequest :=
  {| admission.UID := "uid-1";
     admission.Kind := {| meta.gvkGroup := EmptyString; meta.gvkVersion := "v1";
                          meta.Kind := "ConfigMap" |};
     admission.Resource := {| meta.gvrGroup := EmptyString; meta.gvrVersion := "v1";
                              meta.Resource := "configmaps" |};
     admission.Name := "coolmap";
     admission.Namespace := "coolnamespace";
     admission.Object_Raw := "{}" |}.

(** A request for a pod whose raw object is [raw]. *)
Definition podRequest (raw : string) : admission.AdmissionRequest :=
  {| admission.UID := "uid-2";
     admission.Kind := {| meta.gvkGroup := EmptyString; meta.gvkVersion := "v1";
                          meta.Kind := "Pod" |};
     admission.Resource := resourcePod;
     admission.Name := "coolpod";
     admission.Namespace := "coolnamespace";
     admission.Object_Raw := raw |}.

(** A decoder that reads every non-empty input as [coolPod]. *)
Definition decodeCool (raw : string) : result core.Pod :=
  if decide (raw = EmptyString) then Err "unexpected end of JSON input" else Ok coolPod.

(** The logger and tag context [Review] sets up for a request. *)
Definition review_log (m : PodMutator) (ar : admission.AdmissionRequest) : Logger :=
  zap_With (l m)
    [zap_String "kind" (meta.GroupVersionKind_String (admission.Kind ar));
     zap_String "namespace" (admission.Namespace ar);
     zap_String "name" (admission.Name ar)].

Definition review_tags (ar : admission.AdmissionRequest) (res : string) : gmap string string :=
  tag_New
    (tag_New ∅
       [(TagKind, meta.GroupVersionKind_String (admission.Kind ar));
        (TagNamespace, admission.Namespace ar);
        (TagName, admission.Name ar)])
    [(TagResult, res)].

(** The kind, namespace and name of the request are values [tag.New]
    accepts. *)
Definition tags_accepted (ar : admission.AdmissionRequest) : bool :=
  checkValue (meta.GroupVersionKind_String (admission.Kind ar))
  && checkValue (admission.Namespace ar)
  && checkValue (admission.Name ar).

(** A reviewer that answers a fixed response, and stand-ins for the
    serializer at type [AdmissionReview]: only a text starting with a brace
    decodes, [{}] to a review without a request. *)
Definition predictableReviewer (rsp : option admission.AdmissionResponse) : Reviewer :=
  {| Review := λ _, mret rsp |}.

Definition decodeReview (b : string) : result admission.AdmissionReview :=
  if decide (b = "{}") then
    Ok {| admission.Request := None; admission.Response := None |}
  else if String.prefix "{" b then
    Ok {| admission.Request := Some (podRequest "{}"); admission.Response := None |}
  else Err "couldn't get version/kind; json parse error".

Definition encodeReview (ar : admission.AdmissionReview) : string :=
  match admission.Response ar with
  | Some rsp => if admission.Allowed rsp then "allowed" else "denied"
  | None => "null"
  end.

(** Induction over JSON documents, through arrays and objects. *)
Section json_induction.
Variable P : json → Prop.
Hypothesis HNull : P JNull.
Hypothesis HBool : ∀ b, P (JBool b).
Hypothesis HString : ∀ s, P (JString s).
Hypothesis HArray : ∀ l, Forall P l → P (JArray l).
Hypothesis HObject : ∀ fs, Forall (λ kv, P kv.2) fs → P (JObject fs).

Fixpoint json_induction (j : json) : P j :=
  match j with
  | JNull => HNull
  | JBool b => HBool b
  | JString s => HString s
  | JArray l =>
      HArray l
        ((fix all (l : list json) : Forall P l :=
            match l with
            | [] => @List.Forall_nil _ P
            | x :: l' => @List.Forall_cons _ P x l' (json_induction x) (all l')
            end) l)
  | JObject fs =>
      HObject fs
        ((fix all (fs : list (string * json)) : Forall (λ kv, P kv.2) fs :=
            match fs with
            | [] => @List.Forall_nil _ (λ kv, P kv.2)
            | (k, v) :: fs' =>
                @List.Forall_cons _ (λ kv, P kv.2) (k, v) fs' (json_induction v) (all fs')
            end) fs)
  end.
End json_induction.

(** The template of a mutation, seen as the partial pod it is. *)
Definition template_pod (m : PodMutation) : core.Pod :=
  {| core.ObjectMeta := Template_ObjectMeta (Template (Spec m));
     core.Spec := Template_Spec (Template (Spec m)) |}.

(** The scalar fields and map entries of a pod. *)
Inductive scalar_field : Type :=
| FName
| FNamespace
| FLabel (k : string)
| FAnnotation (k : string)
| FDNSPolicy
| FHostNetwork.

Inductive scalar : Type :=
| VString (s : string)
| VBool (b : bool).

Definition set_string (s : string) : option scalar :=
  if decide (s = EmptyString) then None else Some (VString s).

(** The value a pod sets at a field: [None] when the field holds its
    zero value or the map has no such entry. *)
Definition field_value (f : scalar_field) (pod : core.Pod) : option scalar :=
  match f with
  | FName => set_string (meta.Name (core.ObjectMeta pod))
  | FNamespace => set_string (meta.Namespace (core.ObjectMeta pod))
  | FLabel k => VString <$> (meta.Labels (core.ObjectMeta pod) ≫= (λ m, m !! k))
  | FAnnotation k => VString <$> (meta.Annotations (core.ObjectMeta pod) ≫= (λ m, m !! k))
  | FDNSPolicy => set_string (core.DNSPolicy (core.Spec pod))
  | FHostNetwork => if core.HostNetwork (core.Spec pod) then Some (VBool true) else None
  end.

(** The name servers of a pod, none when it has no DNS configuration. *)
Definition nameservers (pod : core.Pod) : list string :=
  match core.DNSConfig (core.Spec pod) with
  | None => []
  | Some c => core.Nameservers c
  end.

(** The mutations of [TestPatch]. *)
Definition addAnnotation : PodMutation :=
  mutation false false
    {| meta.Name := EmptyString; meta.Namespace := EmptyString; meta.Labels := None;
       meta.Annotations := Some {["supercool" := "alsotrue"]} |}
    emptyPodSpec.

Definition addContainer : PodMutation :=
  mutation false true emptyObjectMeta
    {| core.Containers :=
         [{| core.Name := "coolercontainer"; core.Image := "extracool:somehowmorecool";
             core.Command := []; core.Args := [] |}];
       core.DNSPolicy := EmptyString; core.HostNetwork := false; core.DNSConfig := None |}.

Definition overrideNameserversSpec : core.PodSpec :=
  {| core.Containers := []; core.DNSPolicy := "None"; core.HostNetwork := false;
     core.DNSConfig := Some {| core.Nameservers := ["127.0.0.1"] |} |}.

Definition overrideNameservers : PodMutation :=
  mutation true false emptyObjectMeta overrideNameserversSpec.

(** The same template under the default strategy. *)
Definition preserveNameservers : PodMutation :=
  mutation false false emptyObjectMeta overrideNameserversSpec.

(** ** Vocabulary for patch paths *)

(** [s] may follow a path: it is empty or starts another reference token. *)
Definition continues (s : string) : Prop :=
  s = EmptyString ∨ ∃ s', s = String "/" s'.

(** The path [q] lies at or below the path [p]. *)
Definition under (p q : string) : Prop :=
  ∃ s, q = p +:+ s ∧ continues s.

(** A reference token holds no [/]. *)
Fixpoint no_slash (t : string) : Prop :=
  match t with
  | EmptyString => True
  | String c t' => c ≠ "/"%char ∧ no_slash t'
  end.

(** The order [sort.Sort] establishes with [ByPath]. *)
Definition path_le (a b : jsonpatch.Operation) : Prop :=
  String.le (jsonpatch.Path a) (jsonpatch.Path b).

(** The mutation of the test [OverrideNameservers], in the earlier
    revision's form. *)
Definition priorOverrideNameservers : Prior.PodMutation :=
  {| Prior.ObjectMeta := emptyObjectMeta;
     Prior.Spec := overrideNameserversSpec;
     Prior.Strategy := {| Prior.Overwrite := true; Prior.Append := false |} |}.

(** ** The first revision of the reviewer ([PodInjector], file inject.go)

    It records no measurement and leaves the UID of every response empty. *)

Module Injector.
Record PodInjector : Type :=
  { l : Logger;
    p : Patcher;
    ignore : list IgnoreFunc }.

Section Review.
Variable serializer_Decode_Pod : string → result core.Pod.

Definition Review (i : PodInjector) (ar : admission.AdmissionRequest)
  : Eff (option admission.AdmissionResponse) :=
  let log := zap_With (l i)
    [zap_String "kind" (meta.GroupVersionKind_String (admission.Kind ar));
     zap_String "namespace" (admission.Namespace ar);
     zap_String "name" (admission.Name ar)] in
  if decide (admission.Resource ar ≠ resourcePod) then
    let e := "not reviewing unexpected non-pod resource" in
    log_Info log e
      [zap_String "expected" (meta.GroupVersionResource_String resourcePod);
       zap_String "observed" (meta.GroupVersionResource_String (admission.Resource ar))] ;;
    mret (Some (admissionError (errors_New e) meta.StatusReasonInvalid))
  else
  match serializer_Decode_Pod (admission.Object_Raw ar) with
  | Err err =>
      let e := "cannot decode object as a pod" in
      log_Info log e [zap_Error err] ;;
      mret (Some (admissionError (errors_Wrap err e) meta.StatusReasonInvalid))
  | Ok pod =>
      range_ignore (ignore i) 0 pod
        (log_Info log "not mutating ignored pod" [] ;;
         mret (Some {| admission.rUID := EmptyString;
                       admission.Allowed := true;
                       admission.Result := None;
                       admission.Patch := EmptyString;
                       admission.PatchType_ := None |}))
        (emit (EvPatch pod) ;;
         match Patch (p i) pod with
         | Err err =>
             let e := "cannot patch pod" in
             log_Info log e [zap_Error err] ;;
             mret (Some (admissionError (errors_Wrap err e) meta.StatusReasonInternalError))
         | Ok patch =>
             mret (Some {| admission.rUID := EmptyString;
                           admission.Allowed := true;
                           admission.Result := None;
                           admission.Patch := patch;
                           admission.PatchType_ := Some jsonPatch |})
         end)
  end.
End Review.
End Injector.

(** ** The ignore chain the command builds from its flags ([main])

    The two annotation flags are Go maps; the lists are their entries in
    the order [range] visits them in one run. *)
Definition main_ignore_chain (ignorePodsWithHostNetwork : bool)
    (ignorePodsWithAnnotations ignorePodsWithoutAnnotations : list (string * string))
  : list IgnoreFunc :=
  let i := [] in
  let i := if ignorePodsWithHostNetwork then i ++ [IgnorePodsInHostNetwork] else i in
  let i := foldl (λ i kv, i ++ [IgnorePodsWithAnnotation kv.1 kv.2]) i
             ignorePodsWithAnnotations in
  let i := foldl (λ i kv, i ++ [IgnorePodsWithoutAnnotation kv.1 kv.2]) i
             ignorePodsWithoutAnnotations in
  i.

(** ** Vocabulary for runs *)

(** The measurements a run recorded, the pods it handed to the Patcher,
    and its log entries (debug or info, message, fields). *)
Definition records (t : list event) : list (gmap string string) :=
  omap (λ e, match e with EvRecord tags => Some tags | _ => None end) t.

Definition patched (t : list event) : list core.Pod :=
  omap (λ e, match e with EvPatch pod => Some pod | _ => None end) t.

Definition logs (t : list event) : list (bool * string * list Field) :=
  omap (λ e, match e with
             | EvLogInfo msg fs => Some (false, msg, fs)
             | EvLogDebug msg fs => Some (true, msg, fs)
             | _ => None
             end) t.

Definition reviews (t : list event) : list admission.AdmissionRequest :=
  omap (λ e, match e with EvReview ar => Some ar | _ => None end) t.

(** The response of an ignored pod. *)
Definition allowedResponse : admission.AdmissionResponse :=
  {| admission.rUID := EmptyString; admission.Allowed := true; admission.Result := None;
     admission.Patch := EmptyString; admission.PatchType_ := None |}.

(** The options the package provides, as data. *)
Inductive option_spec : Type :=
| OptLogger (lg : Logger)
| OptIgnoreFuncs (fn : list IgnoreFunc).

Definition option_of (o : option_spec) : PodMutatorOption :=
  match o with
  | OptLogger lg => WithLogger lg
  | OptIgnoreFuncs fn => WithIgnoreFuncs fn
  end.

(** A response with its UID and message blanked. *)
Definition blank_UID_message (r : admission.AdmissionResponse) : admission.AdmissionResponse :=
  {| admission.rUID := EmptyString;
     admission.Allowed := admission.Allowed r;
     admission.Result :=
       (λ st, {| meta.Status_ := meta.Status_ st; meta.Reason := meta.Reason st;
                 meta.Message := EmptyString |}) <$> admission.Result r;
     admission.Patch := admission.Patch r;
     admission.PatchType_ := admission.PatchType_ r |}.

(** A pod in the host network, with the annotation [cool=very]. *)
Definition hostPod : core.Pod :=
  {| core.ObjectMeta :=
       {| meta.Name := "hostpod"; meta.Namespace := "coolnamespace";
          meta.Labels := None; meta.Annotations := Some {["cool" := "very"]} |};
     core.Spec :=
       {| core.Containers := []; core.DNSPolicy := EmptyString;
          core.HostNetwork := true; core.DNSConfig := None |} |}.

(** ** The libraries [Patch] links

    [github.com/appscode/jsonpatch], [sort] and [encoding/json] are not
    among the repository's files.  Section 4.2 of the specification says
    what the diff is to produce, and the module [jsonpatch] above follows
    its words; the definitions below follow what the imported libraries
    do, so that [Patch] can be traced as the package runs it. *)

Global Instance json_inhabited : Inhabited json := populate JNull.

(** [strings.HasSuffix(s, suffix)]. *)
Definition strings_HasSuffix (s suffix : string) : bool :=
  String.prefix (String.rev suffix) (String.rev s).

(** [m[k]] with its [ok]. *)
Fixpoint assoc {A} (k : string) (l : list (string * A)) : option A :=
  match l with
  | [] => None
  | (k', v) :: l' => if decide (k = k') then Some v else assoc k l'
  end.

Module appscode.
Import jsonpatch.

(** A Go [interface{}] holding a decoded document: JSON [null] is [nil]. *)
Definition interface (j : json) : option json :=
  match j with JNull => None | _ => Some j end.

(** [makePath(path, newPart)]: the part is printed with [%v] (a key as it
    is, an index in decimal) and escaped after RFC 6901. *)
Definition makePath (path newPart : string) : string :=
  let key := rfc6901Encode newPart in
  if decide (path = EmptyString) then "/" +:+ key
  else if strings_HasSuffix path "/" then path +:+ key
  else path +:+ "/" +:+ key.

(** [reflect.DeepEqual] on decoded documents: two maps are equal when
    they have as many keys and every key of the first holds an equal value
    in the second. *)
Fixpoint DeepEqual (a b : json) {struct a} : bool :=
  match a, b with
  | JNull, JNull => true
  | JBool x, JBool y => bool_decide (x = y)
  | JString x, JString y => bool_decide (x = y)
  | JArray la, JArray lb =>
      Nat.eqb (length la) (length lb)
      && forallb id (zip_with (λ eq y, eq y) (map DeepEqual la) lb)
  | JObject fa, JObject fb =>
      Nat.eqb (length fa) (length fb)
      && forallb (λ kv : string * json,
                    let (k, av) := kv in
                    match field k fb with
                    | Some bv => DeepEqual av bv
                    | None => false
                    end) fa
  | _, _ => false
  end.

Definition isBasicType (a : json) : bool :=
  match a with
  | JString _ | JBool _ => true
  | _ => false
  end.

(** [isSimpleArray]: the loop returns at the first element that is not a
    string, a number or a boolean; true when that element is a map whose
    values are all nil or of these types, false otherwise. *)
Fixpoint isSimpleArray (a : list json) : bool :=
  match a with
  | [] => true
  | JString _ :: a' | JBool _ :: a' => isSimpleArray a'
  | JObject fs :: _ =>
      forallb (λ kv : string * json,
                 match kv.2 with
                 | JNull | JString _ | JBool _ => true
                 | _ => false
                 end) fs
  | _ :: _ => false
  end.

Section compareEditDistance.
Variables s t : list json.
(** [handleValues] at each element of [s]. *)
Variable handle : list (json → string → list Operation).
Variable p : string.

(** The matrix [d] that [compareEditDistance] fills: [d[i][j]], the edit
    distance from the first [i] elements of [s] to the first [j] of [t]. *)
Fixpoint matrix (i : nat) {struct i} : nat → nat :=
  fix row (j : nat) {struct j} : nat :=
    match i with
    | 0 => j
    | S i' =>
        match j with
        | 0 => i
        | S j' =>
            if DeepEqual (s !!! i') (t !!! j') then matrix i' j'
            else
              let del := matrix i' j + 1 in
              let add := row j' + 1 in
              let rep := matrix i' j' + 1 in
              Nat.min rep (Nat.min add del)
        end
    end.

(** [backtrace(s, t, p, i, j, matrix)]: the four tests of the source in
    their order, [remove], [add], change and keep.  An [add] is put on
    index [i], so that two elements added at one place come out on one
    path, the later one first.  A changed element of a basic type is
    replaced; for any other the source compares [s[j-1]] with [t[j-1]]. *)
Fixpoint backtrace (i : nat) {struct i} : nat → list Operation :=
  fix row (j : nat) {struct j} : list Operation :=
    match i with
    | S i' =>
        if bool_decide (matrix i' j + 1 = matrix i j) then
          NewPatch "remove" (makePath p (itoa i')) None :: backtrace i' j
        else
          match j with
          | S j' =>
              if bool_decide (matrix i j' + 1 = matrix i j) then
                NewPatch "add" (makePath p (itoa i)) (interface (t !!! j')) :: row j'
              else if bool_decide (matrix i' j' + 1 = matrix i j) then
                (if isBasicType (s !!! 0) then
                   [NewPatch "replace" (makePath p (itoa i')) (interface (t !!! j'))]
                 else
                   (handle !!! j') (t !!! j') (makePath p (itoa i')))
                ++ backtrace i' j'
              else if bool_decide (matrix i' j' = matrix i j) then backtrace i' j'
              else []
          | 0 => []
          end
    | 0 =>
        match j with
        | S j' =>
            if bool_decide (matrix 0 j' + 1 = matrix 0 j) then
              NewPatch "add" (makePath p (itoa 0)) (interface (t !!! j')) :: row j'
            else []
        | 0 => []
        end
    end.

Definition compareEditDistance : list Operation :=
  backtrace (length s) (length t).
End compareEditDistance.

Section diff.
(** The keys of [a], each with [handleValues] at its value. *)
Variable handle : list (string * (json → string → list Operation)).
Variables a b : list (string * json).
Variable path : string.

(** [diff(a, b, path, patch)]: the keys of [b], added or compared, then
    the keys of [a] that [b] lacks, removed.  Each of the two loops ranges
    over a map; the keys are taken here in the order of the lists. *)
Definition diff : list Operation :=
  flat_map (λ kv : string * json,
              let (key, bv) := kv in
              let p := makePath path key in
              match assoc key handle with
              | None => [NewPatch "add" p (interface bv)]
              | Some handle_av => handle_av bv p
              end) b
  ++ flat_map (λ kv : string * json,
                 match field kv.1 b with
                 | None => [NewPatch "remove" (makePath path kv.1) None]
                 | Some _ => []
                 end) a.
End diff.

(** [handleValues(av, bv, p, patch)], the operations it appends. *)
Fixpoint handleValues (av bv : json) (p : string) {struct av} : list Operation :=
  match av, bv with
  | JNull, JNull => []
  | JNull, _ => [NewPatch "add" p (interface bv)]
  | JObject fa, JObject fb =>
      diff (map (λ kv : string * json, let (k, v) := kv in (k, handleValues v)) fa) fa fb p
  | JString x, JString y =>
      if decide (x = y) then [] else [NewPatch "replace" p (interface bv)]
  | JBool x, JBool y =>
      if decide (x = y) then [] else [NewPatch "replace" p (interface bv)]
  | JArray at_, JArray bt =>
      if isSimpleArray at_ && isSimpleArray bt then
        compareEditDistance at_ bt (map handleValues at_) p
      else
        let n := Nat.min (length at_) (length bt) in
        ((λ i, NewPatch "remove" (makePath p (itoa i)) None)
           <$> reverse (seq n (length at_ - n)))
        ++ imap (λ i v, NewPatch "add" (makePath p (itoa (n + i))) (interface v)) (drop n bt)
        ++ mjoin (imap (λ i (hv : (json → string → list Operation) * json),
                          hv.1 hv.2 (makePath p (itoa i)))
                       (zip (map handleValues at_) bt))
  | _, _ => [NewPatch "replace" p (interface bv)]
  end.

Definition errBadJSONDoc : string := "Invalid JSON Document".

(** [CreatePatch(a, b)].  Each document is decoded into a map: [null]
    leaves the map empty, any other document that is not an object is
    refused.  Go ranges over a map in an order that changes from run to
    run: [emission] is the order in which one run emits the operations. *)
Definition CreatePatch (emission : list Operation → list Operation) (a b : json)
  : result (list Operation) :=
  match a, b with
  | (JObject _ | JNull), (JObject _ | JNull) =>
      let object j := match j with JNull => JObject [] | _ => j end in
      Ok (emission (handleValues (object a) (object b) EmptyString))
  | _, _ => Err errBadJSONDoc
  end.

(** [Operation.MarshalJSON]: the operation and the path are written as
    they are, between quotes; the value is written for every [add] and
    [replace], and for any other operation that holds one. *)
Definition MarshalJSON (j : Operation) : string :=
  let quoted s := String DQ s +:+ String DQ EmptyString in
  "{" +:+ quoted "op" +:+ ":" +:+ quoted (Operation_ j)
      +:+ "," +:+ quoted "path" +:+ ":" +:+ quoted (Path j)
      +:+ (if bool_decide (Value j ≠ None)
              || bool_decide (Operation_ j = "replace")
              || bool_decide (Operation_ j = "add")
           then "," +:+ quoted "value" +:+ ":" +:+ marshal_value (default JNull (Value j))
           else EmptyString)
      +:+ "}".
End appscode.

(** [sort.Sort] leaves its argument in ascending order of [Less] and
    promises nothing about elements neither of which is less than the
    other (the sort is not stable). *)
Definition sorts_ByPath (Sort : list jsonpatch.Operation → list jsonpatch.Operation) : Prop :=
  ∀ patch, Sort patch ≡ₚ patch ∧ Sorted path_le (Sort patch).

Module Linked.
Section Patch.
(** The order in which one run of [jsonpatch.CreatePatch] emits its
    operations. *)
Variable emission : list jsonpatch.Operation → list jsonpatch.Operation.
(** [sort.Sort(jsonpatch.ByPath(patch))]: what it leaves in [patch]. *)
Variable Sort : list jsonpatch.Operation → list jsonpatch.Operation.
(** What [encoding/json] makes of the text a [Marshaler] returned: the
    text compacted and HTML-escaped when it is well-formed JSON, else the
    error [json.Marshal] returns. *)
Variable compact : string → result string.

Fixpoint marshal_elements (patch : list jsonpatch.Operation) : result (list string) :=
  match patch with
  | [] => Ok []
  | j :: patch' =>
      match compact (appscode.MarshalJSON j) with
      | Err err => Err err
      | Ok text =>
          match marshal_elements patch' with
          | Err err => Err err
          | Ok texts => Ok (text :: texts)
          end
      end
  end.

(** [json.Marshal(patch)] for a non-nil slice of operations. *)
Definition json_Marshal (patch : list jsonpatch.Operation) : result string :=
  match marshal_elements patch with
  | Err err => Err err
  | Ok texts => Ok ("[" +:+ strings_Join texts "," +:+ "]")
  end.

(** Patch generates an RFC 6902 JSON patch for the supplied pod. *)
Definition Patch (m : PodMutation) (original : core.Pod) : result string :=
  match PodMutation_inject m original with
  | Err err => Err err
  | Ok injected =>
      match serializer_Encode_Pod original with
      | Err err => Err (errors_Wrap err "cannot encode original pod as JSON")
      | Ok ob =>
          match serializer_Encode_Pod injected with
          | Err err => Err (errors_Wrap err "cannot encode patched pod as JSON")
          | Ok pb =>
              match appscode.CreatePatch emission ob pb with
              | Err err => Err (errors_Wrap err "cannot create patch")
              | Ok patch =>
                  let patch := Sort patch in
                  match json_Marshal patch with
                  | Err err => Err (errors_Wrap err "cannot encode patch as JSON")
                  | Ok b => Ok b
                  end
              end
          end
      end
  end.
End Patch.
End Linked.

(** ** A pod with a resolver, and a mutation that appends two more

    The pod of the tests with one name server set; the mutation appends
    two name servers and adds twelve annotations. *)
Definition resolverPod : core.Pod :=
  {| core.ObjectMeta := core.ObjectMeta coolPod;
     core.Spec :=
       {| core.Containers := core.Containers (core.Spec coolPod);
          core.DNSPolicy := "None";
          core.HostNetwork := false;
          core.DNSConfig := Some {| core.Nameservers := ["10.0.0.1"] |} |} |}.

Definition appendedAnnotations : list string :=
  ["a01"; "a02"; "a03"; "a04"; "a05"; "a06"; "a07"; "a08"; "a09"; "a10"; "a11"; "a12"].

Definition appendResolvers : PodMutation :=
  mutation false true
    {| meta.Name := EmptyString; meta.Namespace := EmptyString; meta.Labels := None;
       meta.Annotations := Some (list_to_map ((λ k, (k, "x")) <$> appendedAnnotations)) |}
    {| core.Containers := []; core.DNSPolicy := EmptyString; core.HostNetwork := false;
       core.DNSConfig := Some {| core.Nameservers := ["10.0.0.2"; "10.0.0.3"] |} |}.

(** Two sorts that meet the contract of [sort.Sort]: insertion from the
    left, which keeps operations on one path in the order it met them, and
    the same after the sequence was reversed, which does not. *)
Definition Sort_stable (patch : list jsonpatch.Operation) : list jsonpatch.Operation :=
  sort_Sort jsonpatch.ByPath_Less patch.

Definition Sort_unstable (patch : list jsonpatch.Operation) : list jsonpatch.Operation :=
  sort_Sort jsonpatch.ByPath_Less (reverse patch).

(** The operations of [A] lie on ascending paths, each below the paths of
    all the operations after it, those of [rest] included. *)
Fixpoint ascending_below (A rest : list jsonpatch.Operation) : bool :=
  match A with
  | [] => true
  | a :: A' => forallb (jsonpatch.ByPath_Less a) (A' ++ rest) && ascending_below A' rest
  end.

(** * Properties *)

(** ** The ignore predicates *)

Lemma index_annotation pod k :
  meta.index (core.GetAnnotations pod) k = default EmptyString (pod_annotation pod k).
Proof. unfold pod_annotation, meta.index. by destruct (core.GetAnnotations pod). Qed.

(** C9: on a pod with no annotation under key [k], be the annotation map
    absent or just without that key, [IgnorePodsWithAnnotation k ""]
    answers true and [IgnorePodsWithoutAnnotation k ""] answers false; on
    a pod whose annotation under [k] is a non-empty value the answers are
    the other way round. *)
Theorem empty_annotation_rule_matches_absence (k : string) (pod : core.Pod) :
  (pod_annotation pod k = None →
     IgnorePodsWithAnnotation k EmptyString pod = true ∧
     IgnorePodsWithoutAnnotation k EmptyString pod = false) ∧
  (∀ v, pod_annotation pod k = Some v → v ≠ EmptyString →
     IgnorePodsWithAnnotation k EmptyString pod = false ∧
     IgnorePodsWithoutAnnotation k EmptyString pod = true).
Proof.
  unfold IgnorePodsWithAnnotation, IgnorePodsWithoutAnnotation.
  rewrite index_annotation. split.
  - intros ->. split; reflexivity.
  - intros v -> Hv. cbn [default]. split; [by apply bool_decide_eq_false_2 | by apply bool_decide_eq_true_2].
Qed.

Lemma empty_annotation_rule_matches_absence_witness :
  (IgnorePodsWithAnnotation "cool" EmptyString barePod = true ∧
   IgnorePodsWithoutAnnotation "cool" EmptyString barePod = false) ∧
  (IgnorePodsWithAnnotation "supercool" EmptyString coolPod = true ∧
   IgnorePodsWithoutAnnotation "supercool" EmptyString coolPod = false) ∧
  (IgnorePodsWithAnnotation "cool" EmptyString coolPod = false ∧
   IgnorePodsWithoutAnnotation "cool" EmptyString coolPod = true).
Proof.
  split; [|split].
  - apply (proj1 (empty_annotation_rule_matches_absence "cool" barePod)). reflexivity.
  - apply (proj1 (empty_annotation_rule_matches_absence "supercool" coolPod)).
    vm_compute. reflexivity.
  - apply (proj2 (empty_annotation_rule_matches_absence "cool" coolPod) "true").
    + vm_compute. reflexivity.
    + discriminate.
Defined.

(** ** The review pipeline *)

Lemma range_ignore_spec {A} (fs : list IgnoreFunc) (i : nat) (pod : core.Pod)
    (hit miss : Eff A) :
  range_ignore fs i pod hit miss =
  match first_match fs pod with
  | Some (n, _) => mkEff (value hit) (ignore_events i (S n) pod ++ trace hit)
  | None => mkEff (value miss) (ignore_events i (length fs) pod ++ trace miss)
  end.
Proof.
  unfold first_match. revert i. induction fs as [|f fs IH]; intros i.
  - by destruct miss.
  - cbn [range_ignore list_find]. case_decide as Hf.
    + rewrite Hf. by destruct hit.
    + destruct (f pod); [done|]. rewrite IH.
      repeat case_match; simplify_eq/=; reflexivity.
Qed.

Lemma ignores_evaluated_app t1 t2 :
  ignores_evaluated (t1 ++ t2) = ignores_evaluated t1 ++ ignores_evaluated t2.
Proof. apply omap_app. Qed.

Lemma ignores_evaluated_ignore_events i n pod :
  ignores_evaluated (ignore_events i n pod) = seq i n.
Proof.
  unfold ignores_evaluated, ignore_events. revert i.
  induction n as [|n IH]; intros i; [done|]. cbn. by rewrite IH.
Qed.

Lemma no_patch_ignore_events i n pod :
  filter (λ e, is_EvPatch e = true) (ignore_events i n pod) = [].
Proof.
  unfold ignore_events. revert i.
  induction n as [|n IH]; intros i; [done|]. cbn. apply IH.
Qed.

Section ReviewPaths.
Variable dec : string → result core.Pod.
Variables (m : PodMutator) (ar : admission.AdmissionRequest).

Lemma Review_non_pod :
  admission.Resource ar ≠ resourcePod →
  PodMutator_Review dec m ar =
  mkEff (Some (admissionError "cannot review non-pod resource" meta.StatusReasonInvalid))
    [EvLogInfo "cannot review non-pod resource"
       (review_log m ar ++
        [("expected", meta.GroupVersionResource_String resourcePod);
         ("observed", meta.GroupVersionResource_String (admission.Resource ar))]);
     EvRecord (review_tags ar tagResultError)].
Proof. intros H. unfold PodMutator_Review. by rewrite decide_True. Qed.

Lemma Review_undecodable err :
  admission.Resource ar = resourcePod →
  dec (admission.Object_Raw ar) = Err err →
  PodMutator_Review dec m ar =
  mkEff (Some (admissionError (errors_Wrap err "cannot decode object as a pod")
                 meta.StatusReasonInvalid))
    [EvLogInfo "cannot decode object as a pod" (review_log m ar ++ [("error", err)]);
     EvRecord (review_tags ar tagResultError)].
Proof.
  intros H Hd. unfold PodMutator_Review.
  rewrite decide_False by (by intros ?). by rewrite Hd.
Qed.

Lemma Review_ignored pod n f :
  admission.Resource ar = resourcePod →
  dec (admission.Object_Raw ar) = Ok pod →
  first_match (ignore m) pod = Some (n, f) →
  PodMutator_Review dec m ar =
  mkEff (Some {| admission.rUID := EmptyString; admission.Allowed := true;
                 admission.Result := None; admission.Patch := EmptyString;
                 admission.PatchType_ := None |})
    (ignore_events 0 (S n) pod ++
     [EvLogInfo "not mutating ignored pod" (review_log m ar ++ []);
      EvRecord (review_tags ar tagResultIgnored)]).
Proof.
  intros H Hd Hf. unfold PodMutator_Review.
  rewrite decide_False by (by intros ?). rewrite Hd, range_ignore_spec, Hf. reflexivity.
Qed.

Lemma Review_patch_error pod err :
  admission.Resource ar = resourcePod →
  dec (admission.Object_Raw ar) = Ok pod →
  first_match (ignore m) pod = None →
  Patch (p m) pod = Err err →
  PodMutator_Review dec m ar =
  mkEff (Some (admissionError (errors_Wrap err "cannot patch pod")
                 meta.StatusReasonInternalError))
    (ignore_events 0 (length (ignore m)) pod ++
     [EvPatch pod;
      EvLogInfo "cannot patch pod" (review_log m ar ++ [("error", err)]);
      EvRecord (review_tags ar tagResultError)]).
Proof.
  intros H Hd Hf Hp. unfold PodMutator_Review.
  rewrite decide_False by (by intros ?). rewrite Hd, range_ignore_spec, Hf, Hp. reflexivity.
Qed.

Lemma Review_mutated pod patch :
  admission.Resource ar = resourcePod →
  dec (admission.Object_Raw ar) = Ok pod →
  first_match (ignore m) pod = None →
  Patch (p m) pod = Ok patch →
  PodMutator_Review dec m ar =
  mkEff (Some {| admission.rUID := admission.UID ar; admission.Allowed := true;
                 admission.Result := None; admission.Patch := patch;
                 admission.PatchType_ := Some jsonPatch |})
    (ignore_events 0 (length (ignore m)) pod ++
     [EvPatch pod;
      EvLogDebug "mutated pod" (review_log m ar ++ []);
      EvRecord (review_tags ar tagResultMutated)]).
Proof.
  intros H Hd Hf Hp. unfold PodMutator_Review.
  rewrite decide_False by (by intros ?). rewrite Hd, range_ignore_spec, Hf, Hp. reflexivity.
Qed.

(** Every run of [Review] takes one of its five exits. *)
Lemma Review_cases :
  (admission.Resource ar ≠ resourcePod) ∨
  (admission.Resource ar = resourcePod ∧
   ((∃ err, dec (admission.Object_Raw ar) = Err err) ∨
    (∃ pod, dec (admission.Object_Raw ar) = Ok pod ∧
       ((∃ n f, first_match (ignore m) pod = Some (n, f)) ∨
        (first_match (ignore m) pod = None ∧
           ((∃ err, Patch (p m) pod = Err err) ∨
            (∃ patch, Patch (p m) pod = Ok patch))))))).
Proof.
  destruct (decide (admission.Resource ar = resourcePod)) as [Hr|Hr]; [right|by left].
  split; [done|].
  destruct (dec (admission.Object_Raw ar)) as [pod|err] eqn:Hd; [right|left; eauto].
  exists pod. split; [done|].
  destruct (first_match (ignore m) pod) as [[n f]|] eqn:Hf; [left; eauto|right].
  split; [done|]. destruct (Patch (p m) pod); eauto.
Qed.
End ReviewPaths.

Lemma first_match_Some fs pod n f :
  first_match fs pod = Some (n, f) ↔
  fs !! n = Some f ∧ f pod = true ∧ ∀ j g, fs !! j = Some g → j < n → g pod = false.
Proof.
  unfold first_match. rewrite list_find_Some. split.
  - intros (H1 & H2 & H3). repeat split; [done..|].
    intros j g Hj Hlt. specialize (H3 j g Hj Hlt). by destruct (g pod).
  - intros (H1 & H2 & H3). repeat split; [done..|].
    intros j g Hj Hlt. rewrite (H3 j g Hj Hlt). done.
Qed.

Lemma first_match_Exists fs pod :
  Exists (λ g, g pod = true) fs → ∃ n f, first_match fs pod = Some (n, f).
Proof.
  intros H. unfold first_match.
  destruct (list_find (λ g, g pod = true) fs) as [[n f]|] eqn:Hf; [eauto|].
  apply list_find_None in Hf. apply Exists_exists in H as (g & Hg & Hm).
  rewrite Forall_forall in Hf. by destruct (Hf g).
Qed.

Lemma first_match_None fs pod :
  first_match fs pod = None ↔ Forall (λ g, g pod = false) fs.
Proof.
  unfold first_match. rewrite list_find_None. apply Forall_iff. intros g.
  by destruct (g pod).
Qed.

(** C2, as the code has it: a request for any resource but [{v1, pods}] is
    rejected with reason [Invalid] and the fixed message
    [cannot review non-pod resource]; the expected and the observed
    resource are named in the log entry, not in the message; no predicate
    is evaluated and the Patcher is not invoked. *)
Theorem Review_rejects_non_pod_resource
    (dec : string → result core.Pod) (m : PodMutator) (ar : admission.AdmissionRequest) :
  admission.Resource ar ≠ resourcePod →
  let out := PodMutator_Review dec m ar in
  value out =
    Some {| admission.rUID := EmptyString; admission.Allowed := false;
            admission.Result :=
              Some {| meta.Status_ := meta.StatusFailure;
                      meta.Reason := meta.StatusReasonInvalid;
                      meta.Message := "cannot review non-pod resource" |};
            admission.Patch := EmptyString; admission.PatchType_ := None |} ∧
  trace out =
    [EvLogInfo "cannot review non-pod resource"
       (review_log m ar ++
        [("expected", "/v1, Resource=pods");
         ("observed", meta.GroupVersionResource_String (admission.Resource ar))]);
     EvRecord (review_tags ar tagResultError)] ∧
  filter (λ e, is_EvPatch e = true) (trace out) = [] ∧
  ignores_evaluated (trace out) = [].
Proof.
  intros H out. unfold out. rewrite Review_non_pod by done. cbn [value trace].
  repeat split.
Qed.

Lemma Review_rejects_non_pod_resource_witness :
  let out := PodMutator_Review decodeCool
               (NewPodMutator (predictablePatcher "coolpatch")
                  [WithIgnoreFuncs [IgnorePodsInHostNetwork]]) configmapRequest in
  admission.Result <$> value out =
    Some (Some {| meta.Status_ := "Failure"; meta.Reason := meta.StatusReasonInvalid;
                  meta.Message := "cannot review non-pod resource" |}) ∧
  filter (λ e, is_EvPatch e = true) (trace out) = [].
Proof.
  pose proof (Review_rejects_non_pod_resource decodeCool
                (NewPodMutator (predictablePatcher "coolpatch")
                   [WithIgnoreFuncs [IgnorePodsInHostNetwork]]) configmapRequest) as H.
  cbv zeta in H. destruct H as (Hv & _ & Hp & _); [discriminate|].
  cbv zeta. rewrite Hv. split; [reflexivity | exact Hp].
Defined.

(** C2 as stated fails: the message of the rejection of a [configmaps]
    request names neither [pods] nor [configmaps]. *)
Lemma non_pod_message_names_no_kind :
  ¬ ∃ rsp st,
      value (PodMutator_Review decodeCool
               (NewPodMutator (predictablePatcher "coolpatch") []) configmapRequest)
        = Some rsp ∧
      admission.Result rsp = Some st ∧
      meta.Reason st = meta.StatusReasonInvalid ∧
      names_kind (meta.Message st) resourcePod ∧
      names_kind (meta.Message st) (admission.Resource configmapRequest).
Proof.
  intros (rsp & st & Hv & Hr & _ & _ & Hn).
  vm_compute in Hv. injection Hv as <-. cbn in Hr. injection Hr as <-.
  vm_compute in Hn. discriminate.
Qed.

(** C3: when some predicate of the chain matches the decoded pod of a pod
    request, [Review] answers allowed, with no patch and no patch type,
    does not invoke the Patcher, and evaluates the predicates up to the
    first matching one and none after it. *)
Theorem Review_ignore_short_circuit
    (dec : string → result core.Pod) (m : PodMutator) (ar : admission.AdmissionRequest)
    (pod : core.Pod) :
  admission.Resource ar = resourcePod →
  dec (admission.Object_Raw ar) = Ok pod →
  Exists (λ g, g pod = true) (ignore m) →
  ∃ n f,
    (ignore m !! n = Some f ∧ f pod = true ∧
     ∀ j g, ignore m !! j = Some g → j < n → g pod = false) ∧
    let out := PodMutator_Review dec m ar in
    value out =
      Some {| admission.rUID := EmptyString; admission.Allowed := true;
              admission.Result := None; admission.Patch := EmptyString;
              admission.PatchType_ := None |} ∧
    filter (λ e, is_EvPatch e = true) (trace out) = [] ∧
    ignores_evaluated (trace out) = seq 0 (S n).
Proof.
  intros Hr Hd Hex. apply (first_match_Exists _ pod) in Hex as (n & f & Hf).
  exists n, f. split; [by apply first_match_Some|].
  cbv zeta. rewrite (Review_ignored dec m ar pod n f) by done. cbn [value trace].
  split; [done|]. split.
  - rewrite filter_app, no_patch_ignore_events. reflexivity.
  - rewrite ignores_evaluated_app, ignores_evaluated_ignore_events. cbn. by rewrite app_nil_r.
Qed.

Lemma Review_ignore_short_circuit_witness :
  ∃ n f,
    ([IgnorePodsInHostNetwork; IgnorePodsWithAnnotation "cool" "true";
      IgnorePodsWithoutAnnotation "cool" "very"] !! n = Some f ∧ f coolPod = true ∧
     ∀ j g, [IgnorePodsInHostNetwork; IgnorePodsWithAnnotation "cool" "true";
             IgnorePodsWithoutAnnotation "cool" "very"] !! j = Some g → j < n →
            g coolPod = false) ∧
    let out := PodMutator_Review decodeCool
                 (NewPodMutator (predictablePatcher "coolpatch")
                    [WithIgnoreFuncs [IgnorePodsInHostNetwork;
                                      IgnorePodsWithAnnotation "cool" "true";
                                      IgnorePodsWithoutAnnotation "cool" "very"]])
                 (podRequest "{}") in
    value out =
      Some {| admission.rUID := EmptyString; admission.Allowed := true;
              admission.Result := None; admission.Patch := EmptyString;
              admission.PatchType_ := None |} ∧
    filter (λ e, is_EvPatch e = true) (trace out) = [] ∧
    ignores_evaluated (trace out) = seq 0 (S n).
Proof.
  apply (Review_ignore_short_circuit decodeCool
           (NewPodMutator (predictablePatcher "coolpatch")
              [WithIgnoreFuncs [IgnorePodsInHostNetwork;
                                IgnorePodsWithAnnotation "cool" "true";
                                IgnorePodsWithoutAnnotation "cool" "very"]])
           (podRequest "{}") coolPod).
  - reflexivity.
  - reflexivity.
  - apply Exists_cons_tl, Exists_cons_hd. vm_compute. reflexivity.
Defined.

Lemma shapes_exclusive (r : admission.AdmissionResponse) :
  (allowed_unmodified r → ¬ allowed_with_patch r ∧ ¬ rejected r) ∧
  (allowed_with_patch r → ¬ allowed_unmodified r ∧ ¬ rejected r) ∧
  (rejected r → ¬ allowed_unmodified r ∧ ¬ allowed_with_patch r).
Proof.
  unfold allowed_unmodified, allowed_with_patch, rejected.
  repeat split; intros H'; destruct_and?; try destruct H' as [? ?]; congruence.
Qed.

(** C7: for every request, well-formed or not, [Review] returns a response
    (never nil) of exactly one of three shapes: allowed and unmodified (no
    patch, no patch type, no failure result), allowed with a patch (the
    Patcher's payload under the [JSONPatch] tag, no failure result), or
    rejected (a failure result with reason and message, no patch, no patch
    type). *)
Theorem Review_response_has_one_shape
    (dec : string → result core.Pod) (m : PodMutator) (ar : admission.AdmissionRequest) :
  ∃ rsp, value (PodMutator_Review dec m ar) = Some rsp ∧
    ((allowed_unmodified rsp ∧ ¬ allowed_with_patch rsp ∧ ¬ rejected rsp) ∨
     (allowed_with_patch rsp ∧ ¬ allowed_unmodified rsp ∧ ¬ rejected rsp ∧
        ∃ pod, dec (admission.Object_Raw ar) = Ok pod ∧
               Patch (p m) pod = Ok (admission.Patch rsp)) ∨
     (rejected rsp ∧ ¬ allowed_unmodified rsp ∧ ¬ allowed_with_patch rsp)).
Proof.
  destruct (Review_cases dec m ar)
    as [Hr|(Hr & [(err & Hd)|(pod & Hd & [(n & f & Hf)|(Hf & [(err & Hp)|(b & Hp)])])])].
  - rewrite Review_non_pod by done. eexists. split; [reflexivity|].
    right; right. apply and_wlog_r; [|apply shapes_exclusive].
    unfold rejected, admissionError; cbn. eauto 10.
  - rewrite (Review_undecodable _ _ _ err) by done. eexists. split; [reflexivity|].
    right; right. apply and_wlog_r; [|apply shapes_exclusive].
    unfold rejected, admissionError; cbn. eauto 10.
  - rewrite (Review_ignored _ _ _ pod n f) by done. eexists. split; [reflexivity|].
    left. apply and_wlog_r; [|apply shapes_exclusive].
    by unfold allowed_unmodified.
  - rewrite (Review_patch_error _ _ _ pod err) by done. eexists. split; [reflexivity|].
    right; right. apply and_wlog_r; [|apply shapes_exclusive].
    unfold rejected, admissionError; cbn. eauto 10.
  - rewrite (Review_mutated _ _ _ pod b) by done. eexists. split; [reflexivity|].
    right; left. cbn [value].
    assert (allowed_with_patch
              {| admission.rUID := admission.UID ar; admission.Allowed := true;
                 admission.Result := None; admission.Patch := b;
                 admission.PatchType_ := Some jsonPatch |}) as Hs
      by (by unfold allowed_with_patch).
    split; [done|]. destruct (proj1 (proj2 (shapes_exclusive _)) Hs) as [? ?].
    repeat split; [done..|]. exists pod. by split.
Qed.

(** C10: every request gets a response of one of the three shapes, and
    it is the allowed response with a patch exactly when the request is
    for the pod resource, its object decodes, no predicate of the chain
    matches the pod and the Patcher succeeds on it.  That response copies
    the request's UID; the allowed and unmodified response and every
    rejection leave the UID empty: no other input has its UID copied. *)
Theorem Review_response_UID
    (dec : string → result core.Pod) (m : PodMutator) (ar : admission.AdmissionRequest) :
  ∃ rsp, value (PodMutator_Review dec m ar) = Some rsp ∧
    (allowed_with_patch rsp ∨ allowed_unmodified rsp ∨ rejected rsp) ∧
    (allowed_with_patch rsp ↔
       admission.Resource ar = resourcePod ∧
       ∃ pod b, dec (admission.Object_Raw ar) = Ok pod ∧
                Forall (λ g, g pod = false) (ignore m) ∧
                Patch (p m) pod = Ok b) ∧
    (allowed_with_patch rsp → admission.rUID rsp = admission.UID ar) ∧
    (allowed_unmodified rsp → admission.rUID rsp = EmptyString) ∧
    (rejected rsp → admission.rUID rsp = EmptyString) ∧
    (¬ allowed_with_patch rsp → admission.rUID rsp = EmptyString).
Proof.
  destruct (Review_cases dec m ar)
    as [Hr|(Hr & [(err & Hd)|(pod & Hd & [(n & f & Hf)|(Hf & [(err & Hp)|(b & Hp)])])])].
  - rewrite Review_non_pod by done. eexists. split; [reflexivity|].
    assert (¬ allowed_with_patch
                (admissionError (errors_New "cannot review non-pod resource")
                   meta.StatusReasonInvalid)) as Hn by (by intros (? & _)).
    split_and!; try done.
    + right; right. unfold rejected, admissionError; cbn. eauto 10.
    + split; [done|]. by intros (? & _).
  - rewrite (Review_undecodable _ _ _ err) by done. eexists. split; [reflexivity|].
    assert (¬ allowed_with_patch
                (admissionError (errors_Wrap err "cannot decode object as a pod")
                   meta.StatusReasonInvalid)) as Hn by (by intros (? & _)).
    split_and!; try done.
    + right; right. unfold rejected, admissionError; cbn. eauto 10.
    + split; [done|]. intros (_ & pod & b & Hd' & _). by rewrite Hd in Hd'.
  - rewrite (Review_ignored _ _ _ pod n f) by done. eexists. split; [reflexivity|].
    cbn [value].
    assert (¬ allowed_with_patch
                {| admission.rUID := EmptyString; admission.Allowed := true;
                   admission.Result := None; admission.Patch := EmptyString;
                   admission.PatchType_ := None |}) as Hn by (by intros (_ & ? & _)).
    split_and!; try done.
    + right; left. by unfold allowed_unmodified.
    + split; [done|]. intros (_ & pod' & b & Hd' & Hall & _).
      rewrite Hd in Hd'. injection Hd' as <-.
      apply first_match_None in Hall. by rewrite Hf in Hall.
  - rewrite (Review_patch_error _ _ _ pod err) by done. eexists. split; [reflexivity|].
    cbn [value].
    assert (¬ allowed_with_patch
                (admissionError (errors_Wrap err "cannot patch pod")
                   meta.StatusReasonInternalError)) as Hn by (by intros (? & _)).
    split_and!; try done.
    + right; right. unfold rejected, admissionError; cbn. eauto 10.
    + split; [done|]. intros (_ & pod' & b & Hd' & _ & Hp').
      rewrite Hd in Hd'. injection Hd' as <-. by rewrite Hp in Hp'.
  - rewrite (Review_mutated _ _ _ pod b) by done. eexists. split; [reflexivity|].
    cbn [value].
    assert (allowed_with_patch
              {| admission.rUID := admission.UID ar; admission.Allowed := true;
                 admission.Result := None; admission.Patch := b;
                 admission.PatchType_ := Some jsonPatch |}) as Hy
      by (by unfold allowed_with_patch).
    split_and!; try done.
    + by left.
    + split; [|done]. intros _. split; [done|]. exists pod, b.
      split_and!; try done. by apply first_match_None.
    + by intros (_ & _ & ? & _).
    + by intros (? & _).
Qed.

(** The three shapes on the package's own test requests. *)
Example Review_mutated_copies_UID :
  value (PodMutator_Review decodeCool (NewPodMutator (predictablePatcher "coolpatch") [])
           (podRequest "{}")) =
  Some {| admission.rUID := "uid-2"; admission.Allowed := true; admission.Result := None;
          admission.Patch := "coolpatch";
          admission.PatchType_ := Some admission.PatchTypeJSONPatch |}.
Proof. reflexivity. Qed.

Example Review_patch_error_message :
  value (PodMutator_Review decodeCool (NewPodMutator (failingPatcher "boom") [])
           (podRequest "{}")) =
  Some (admissionError "cannot patch pod: boom" meta.StatusReasonInternalError).
Proof. reflexivity. Qed.

Example Review_object_is_not_a_pod :
  value (PodMutator_Review decodeCool (NewPodMutator (predictablePatcher EmptyString) [])
           (podRequest EmptyString)) =
  Some (admissionError "cannot decode object as a pod: unexpected end of JSON input"
          meta.StatusReasonInvalid).
Proof. reflexivity. Qed.

(** ** The webhook transport *)

(** C8: an empty body is answered 400 with the line
    [cannot parse empty request body]; a body that does not decode and an
    envelope without a request are answered 400 too; in all three runs no
    event occurs, so the Reviewer is not invoked. *)
Theorem webhook_rejects_malformed_bodies
    (dec : string → result admission.AdmissionReview)
    (enc : admission.AdmissionReview → string) (r : Reviewer) (rq : http.Request) :
  let out := AdmissionReviewWebhook dec enc r rq in
  (http.Body rq = Ok EmptyString →
     value out = http.Error "cannot parse empty request body" 400 ∧
     filter (λ e, is_EvReview e = true) (trace out) = [] ∧ trace out = []) ∧
  (∀ b err, http.Body rq = Ok b → dec b = Err err →
     http.StatusCode (value out) = 400 ∧
     filter (λ e, is_EvReview e = true) (trace out) = [] ∧ trace out = []) ∧
  (∀ b ar, http.Body rq = Ok b → dec b = Ok ar → admission.Request ar = None →
     http.StatusCode (value out) = 400 ∧
     filter (λ e, is_EvReview e = true) (trace out) = [] ∧ trace out = []).
Proof.
  cbv zeta. unfold AdmissionReviewWebhook. split; [|split].
  - intros ->. by cbn.
  - intros b err -> Hd. case_decide; [done|]. by rewrite Hd.
  - intros b ar -> Hd Hn. case_decide; [done|]. by rewrite Hd, Hn.
Qed.

Lemma webhook_rejects_malformed_bodies_witness :
  value (AdmissionReviewWebhook decodeReview encodeReview
           (predictableReviewer None) {| http.Body := Ok EmptyString |})
    = http.Error "cannot parse empty request body" 400 ∧
  http.StatusCode (value (AdmissionReviewWebhook decodeReview encodeReview
           (predictableReviewer None) {| http.Body := Ok "imastring!" |})) = 400 ∧
  trace (AdmissionReviewWebhook decodeReview encodeReview
           (predictableReviewer None) {| http.Body := Ok "{}" |}) = [].
Proof.
  split; [|split].
  - apply (proj1 (webhook_rejects_malformed_bodies decodeReview encodeReview
                    (predictableReviewer None) {| http.Body := Ok EmptyString |})).
    reflexivity.
  - eapply (proj1 (proj2 (webhook_rejects_malformed_bodies decodeReview encodeReview
                    (predictableReviewer None) {| http.Body := Ok "imastring!" |})));
      reflexivity.
  - eapply (proj2 (proj2 (webhook_rejects_malformed_bodies decodeReview encodeReview
                    (predictableReviewer None) {| http.Body := Ok "{}" |})));
      reflexivity.
Defined.

(** A body whose envelope holds a request reaches the Reviewer, once. *)
Lemma webhook_invokes_reviewer dec enc r rq b ar rq' :
  http.Body rq = Ok b → b ≠ EmptyString → dec b = Ok ar →
  admission.Request ar = Some rq' →
  filter (λ e, is_EvReview e = true)
    (trace (AdmissionReviewWebhook dec enc (predictableReviewer r) rq)) = [EvReview rq'].
Proof.
  intros Hb Hne Hd Hr. unfold AdmissionReviewWebhook. rewrite Hb.
  rewrite decide_False by (by destruct b). by rewrite Hd, Hr.
Qed.

Example webhook_empty_request_body :
  http.rBody (value (AdmissionReviewWebhook decodeReview encodeReview
                       (predictableReviewer None) {| http.Body := Ok EmptyString |}))
  = "cannot parse empty request body" +:+ http.LF.
Proof. reflexivity. Qed.

(** ** The merge *)

Lemma config_merge_options (s : PodMutationStrategy) :
  mergo.config (merge_options s) =
  {| mergo.Overwrite := Overwrite s; mergo.AppendSlice := Append s |}.
Proof. by destruct s as [[] []]. Qed.

Lemma PodMutation_inject_Ok (m : PodMutation) (original : core.Pod) :
  let c := mergo.config (merge_options (Strategy (Spec m))) in
  PodMutation_inject m original =
  Ok {| core.ObjectMeta :=
          {| meta.Name := mergo.mergeString c (meta.Name (core.ObjectMeta original))
                            (meta.Name (core.ObjectMeta (template_pod m)));
             meta.Namespace := mergo.mergeString c (meta.Namespace (core.ObjectMeta original))
                                 (meta.Namespace (core.ObjectMeta (template_pod m)));
             meta.Labels := mergo.mergeMap c (meta.Labels (core.ObjectMeta original))
                              (meta.Labels (core.ObjectMeta (template_pod m)));
             meta.Annotations := mergo.mergeMap c (meta.Annotations (core.ObjectMeta original))
                                   (meta.Annotations (core.ObjectMeta (template_pod m))) |};
        core.Spec :=
          {| core.Containers := mergo.mergeSlice c (core.Containers (core.Spec original))
                                  (core.Containers (core.Spec (template_pod m)));
             core.DNSPolicy := mergo.mergeString c (core.DNSPolicy (core.Spec original))
                                 (core.DNSPolicy (core.Spec (template_pod m)));
             core.HostNetwork := mergo.mergeBool c (core.HostNetwork (core.Spec original))
                                   (core.HostNetwork (core.Spec (template_pod m)));
             core.DNSConfig := mergo.mergePtr (mergo.merge_PodDNSConfig c)
                                 (core.DNSConfig (core.Spec original))
                                 (core.DNSConfig (core.Spec (template_pod m))) |} |}.
Proof. reflexivity. Qed.

Lemma mergeString_set c d s :
  d ≠ EmptyString → s ≠ EmptyString →
  mergo.mergeString c d s = if mergo.Overwrite c then s else d.
Proof. intros Hd Hs. unfold mergo.mergeString. by rewrite !decide_False. Qed.

Lemma set_string_Some s v : set_string s = Some v → s ≠ EmptyString ∧ v = VString s.
Proof. unfold set_string. case_decide; naive_solver. Qed.

Lemma set_string_if (b : bool) s t :
  s ≠ EmptyString → t ≠ EmptyString →
  set_string (if b then s else t) = Some (if b then VString s else VString t).
Proof. intros. unfold set_string. destruct b; by rewrite decide_False. Qed.

Lemma mergeMap_entry c (d s : option (gmap string string)) k vo vt :
  d ≫= (λ m, m !! k) = Some vo → s ≫= (λ m, m !! k) = Some vt →
  mergo.mergeMap c d s ≫= (λ m, m !! k) = Some (if mergo.Overwrite c then vt else vo).
Proof.
  destruct d as [d|], s as [s|]; cbn; try done. intros Hd Hs.
  rewrite lookup_union_with, Hd, Hs. reflexivity.
Qed.

(** C4: a scalar field or map entry set on both the template and the
    original holds, after the merge [Patch] performs, the template's value
    when [strategy.overwrite] is true and the original's value when it is
    false; so, the two values being different, the result is the
    template's iff [overwrite] is true and the original's iff it is
    false. *)
Theorem merge_field_set_in_both
    (m : PodMutation) (original injected : core.Pod) (f : scalar_field) (vo vt : scalar) :
  PodMutation_inject m original = Ok injected →
  field_value f original = Some vo →
  field_value f (template_pod m) = Some vt →
  field_value f injected = Some (if Overwrite (Strategy (Spec m)) then vt else vo) ∧
  (vt ≠ vo →
     (field_value f injected = Some vt ↔ Overwrite (Strategy (Spec m)) = true) ∧
     (field_value f injected = Some vo ↔ Overwrite (Strategy (Spec m)) = false)).
Proof.
  intros Hi Ho Ht.
  assert (field_value f injected = Some (if Overwrite (Strategy (Spec m)) then vt else vo))
    as Hres.
  { rewrite PodMutation_inject_Ok in Hi. cbv zeta in Hi. injection Hi as <-.
    rewrite config_merge_options.
    unfold template_pod in *.
    destruct f; cbn [field_value core.ObjectMeta core.Spec meta.Name meta.Namespace
                     meta.Labels meta.Annotations core.DNSPolicy core.HostNetwork] in *.
    - apply set_string_Some in Ho as [Ho ->], Ht as [Ht ->].
      rewrite mergeString_set by done. cbn [mergo.Overwrite].
      rewrite set_string_if by done. by destruct (Overwrite _).
    - apply set_string_Some in Ho as [Ho ->], Ht as [Ht ->].
      rewrite mergeString_set by done. cbn [mergo.Overwrite].
      rewrite set_string_if by done. by destruct (Overwrite _).
    - apply fmap_Some in Ho as (so & Ho & ->), Ht as (st & Ht & ->).
      rewrite (mergeMap_entry _ _ _ _ so st) by done. cbn. by destruct (Overwrite _).
    - apply fmap_Some in Ho as (so & Ho & ->), Ht as (st & Ht & ->).
      rewrite (mergeMap_entry _ _ _ _ so st) by done. cbn. by destruct (Overwrite _).
    - apply set_string_Some in Ho as [Ho ->], Ht as [Ht ->].
      rewrite mergeString_set by done. cbn [mergo.Overwrite].
      rewrite set_string_if by done. by destruct (Overwrite _).
    - destruct (core.HostNetwork (core.Spec original)); [|done].
      destruct (core.HostNetwork (Template_Spec _)); [|done].
      simplify_eq. by destruct (Overwrite _). }
  split; [done|]. intros Hne. rewrite Hres.
  destruct (Overwrite (Strategy (Spec m))); split; split; try done; intros; simplify_eq.
Qed.

Lemma merge_field_set_in_both_witness :
  (∃ injected, PodMutation_inject overrideNameservers coolPod = Ok injected ∧
     field_value FDNSPolicy injected = Some (VString "None")) ∧
  (∃ injected, PodMutation_inject preserveNameservers coolPod = Ok injected ∧
     field_value FDNSPolicy injected = Some (VString "ClusterFirst")).
Proof.
  split; (eexists; split; [reflexivity|]).
  - apply (proj1 (merge_field_set_in_both overrideNameservers coolPod _ FDNSPolicy
                    (VString "ClusterFirst") (VString "None")
                    eq_refl eq_refl eq_refl)).
  - apply (proj1 (merge_field_set_in_both preserveNameservers coolPod _ FDNSPolicy
                    (VString "ClusterFirst") (VString "None")
                    eq_refl eq_refl eq_refl)).
Defined.

(** C5: with [strategy.append], a sequence field after the merge [Patch]
    performs is the original's elements, in their order, followed by the
    template's: its length is the sum of the two lengths, and no element
    is dropped, duplicate or not. *)
Theorem merge_append_sequences (m : PodMutation) (original injected : core.Pod) :
  PodMutation_inject m original = Ok injected →
  Append (Strategy (Spec m)) = true →
  let o := core.Containers (core.Spec original) in
  let t := core.Containers (core.Spec (template_pod m)) in
  let r := core.Containers (core.Spec injected) in
  r = o ++ t ∧
  length r = length o + length t ∧
  take (length o) r = o ∧
  drop (length o) r = t ∧
  nameservers injected = nameservers original ++ nameservers (template_pod m).
Proof.
  intros Hi Ha. rewrite PodMutation_inject_Ok in Hi. cbv zeta in Hi. injection Hi as <-.
  rewrite config_merge_options, Ha. cbv zeta. cbn [core.Spec core.Containers].
  unfold mergo.mergeSlice at 1 2 3 4. cbn [mergo.AppendSlice].
  split; [done|]. split; [by rewrite length_app|].
  split; [by rewrite take_app_length|]. split; [by rewrite drop_app_length|].
  unfold nameservers, template_pod. cbn [core.Spec core.DNSConfig].
  destruct (core.DNSConfig (core.Spec original)) as [d|],
           (core.DNSConfig (Template_Spec (Template (Spec m)))) as [s|]; cbn; try done.
  by rewrite app_nil_r.
Qed.

Lemma merge_append_sequences_witness :
  ∃ injected, PodMutation_inject addContainer coolPod = Ok injected ∧
    core.Name <$> core.Containers (core.Spec injected) = ["coolcontainer"; "coolercontainer"].
Proof.
  eexists. split; [reflexivity|].
  rewrite (proj1 (merge_append_sequences addContainer coolPod _ eq_refl eq_refl)).
  reflexivity.
Defined.

(** Appending keeps duplicates: a template that repeats the pod's own
    container yields that container twice. *)
Example merge_append_keeps_duplicates :
  ∃ injected,
    PodMutation_inject
      (mutation false true emptyObjectMeta (core.Spec coolPod)) coolPod = Ok injected ∧
    core.Name <$> core.Containers (core.Spec injected) = ["coolcontainer"; "coolcontainer"].
Proof. eexists. split; reflexivity. Qed.

(** ** Strings and reference tokens *)

Lemma append_nil_l (s : string) : EmptyString +:+ s = s.
Proof. reflexivity. Qed.

Lemma append_cons (c : ascii) (s t : string) : String c s +:+ t = String c (s +:+ t).
Proof. reflexivity. Qed.

Lemma append_nil_r (s : string) : s +:+ EmptyString = s.
Proof. induction s as [|c s IH]; [done|]. by rewrite append_cons, IH. Qed.

Lemma append_assoc (s1 s2 s3 : string) : (s1 +:+ s2) +:+ s3 = s1 +:+ s2 +:+ s3.
Proof. induction s1 as [|c s1 IH]; [done|]. by rewrite !append_cons, IH. Qed.

Lemma under_refl p : under p p.
Proof. exists EmptyString. split; [by rewrite append_nil_r | by left]. Qed.

Lemma under_token p t q : under (p +:+ "/" +:+ t) q → under p q.
Proof.
  intros (s & -> & _). exists ("/" +:+ t +:+ s). split.
  - by rewrite !append_assoc.
  - right. by eexists.
Qed.

Lemma token_split t1 t2 s1 s2 :
  no_slash t1 → no_slash t2 → continues s1 → continues s2 →
  t1 +:+ s1 = t2 +:+ s2 → t1 = t2.
Proof.
  revert t2. induction t1 as [|c t1 IH]; intros [|c2 t2] H1 H2 Hs1 Hs2 E;
    rewrite ?append_nil_l, ?append_cons in E; cbn in H1, H2.
  - done.
  - destruct Hs1 as [->|[s' ->]]; [done|]. injection E as <- _. by destruct H2.
  - destruct Hs2 as [->|[s' ->]]; [done|]. injection E as -> _. by destruct H1.
  - injection E as -> E. f_equal. destruct H1, H2. by apply IH.
Qed.

Lemma token_disjoint p t1 t2 q :
  no_slash t1 → no_slash t2 →
  under (p +:+ "/" +:+ t1) q → under (p +:+ "/" +:+ t2) q → t1 = t2.
Proof.
  intros H1 H2 (s1 & -> & Hs1) (s2 & E & Hs2).
  rewrite !append_assoc in E. apply (inj (String.app p)) in E.
  rewrite !append_cons, !append_nil_l in E. injection E as E.
  by apply (token_split t1 t2 s1 s2).
Qed.

Lemma no_slash_rfc6901Encode k : no_slash (jsonpatch.rfc6901Encode k).
Proof.
  induction k as [|c k IH]; cbn; [done|].
  repeat case_decide; cbn; repeat split; try done. 
Qed.

Lemma rfc6901Encode_inj k1 k2 :
  jsonpatch.rfc6901Encode k1 = jsonpatch.rfc6901Encode k2 → k1 = k2.
Proof.
  revert k2. induction k1 as [|c1 k1 IH]; intros [|c2 k2]; cbn.
  - done.
  - repeat case_decide; discriminate.
  - repeat case_decide; discriminate.
  - repeat case_decide; intros E; simplify_eq; f_equal; by apply IH.
Qed.

Lemma no_slash_itoa n : no_slash (jsonpatch.itoa n).
Proof.
  unfold jsonpatch.itoa. induction (Nat.to_uint n); cbn; repeat split; done.
Qed.

Lemma itoa_inj n1 n2 : jsonpatch.itoa n1 = jsonpatch.itoa n2 → n1 = n2.
Proof.
  unfold jsonpatch.itoa. intros E. apply DecimalNat.Unsigned.to_uint_inj.
  apply (inj Some). by rewrite <- !NilEmpty.usu, E.
Qed.

(** ** Sorting *)

Section sort.
Context {A : Type} (less : A → A → bool) (R : relation A).
Hypothesis less_true : ∀ x y, less x y = true → R x y.
Hypothesis less_false : ∀ x y, less x y = false → R y x.

Lemma sort_insert_Permutation x l : sort_insert less x l ≡ₚ x :: l.
Proof.
  induction l as [|y l IH]; cbn; [done|].
  destruct (less x y); [done|]. by rewrite IH, Permutation_swap.
Qed.

Lemma sort_Sort_Permutation l : sort_Sort less l ≡ₚ l.
Proof.
  unfold sort_Sort. change l with ([] ++ l) at 2. generalize (@nil A) as acc.
  induction l as [|x l IH]; intros acc; cbn.
  - by rewrite app_nil_r.
  - rewrite IH, sort_insert_Permutation. cbn. apply Permutation_middle.
Qed.

Lemma Sorted_sort_insert x l : Sorted R l → Sorted R (sort_insert less x l).
Proof.
  induction 1 as [|y l Hl IH Hy]; cbn.
  - by repeat constructor.
  - destruct (less x y) eqn:Hxy.
    + constructor; [by constructor|]. constructor. by apply less_true.
    + constructor; [done|]. destruct Hy as [|z l Hyz]; cbn.
      * constructor. by apply less_false.
      * destruct (less x z); constructor; [by apply less_false | done].
Qed.

Lemma Sorted_sort_Sort l : Sorted R (sort_Sort less l).
Proof.
  unfold sort_Sort. assert (Sorted R (@nil A)) as Hacc by constructor.
  revert Hacc. generalize (@nil A) as acc.
  induction l as [|x l IH]; intros acc Hacc; cbn; [done|].
  by apply IH, Sorted_sort_insert.
Qed.
End sort.

Lemma ByPath_Less_true a b : jsonpatch.ByPath_Less a b = true → path_le a b.
Proof.
  unfold jsonpatch.ByPath_Less, path_le, String.le, String.ltb, String.leb.
  by destruct (String.compare _ _).
Qed.

Lemma ByPath_Less_false a b : jsonpatch.ByPath_Less a b = false → path_le b a.
Proof.
  unfold jsonpatch.ByPath_Less, path_le, String.le, String.ltb, String.leb.
  rewrite (String.compare_antisym (jsonpatch.Path b)).
  by destruct (String.compare _ _).
Qed.

Global Instance path_le_trans : Transitive path_le.
Proof. intros a b c. unfold path_le. apply transitivity. Qed.

(** What [sort.Sort(jsonpatch.ByPath(patch))] leaves in [patch]: the same
    operations, in ascending order of path. *)
Lemma sort_ByPath_sorted patch :
  Sorted path_le (sort_Sort jsonpatch.ByPath_Less patch) ∧
  sort_Sort jsonpatch.ByPath_Less patch ≡ₚ patch.
Proof.
  split.
  - apply Sorted_sort_Sort; [apply ByPath_Less_true | apply ByPath_Less_false].
  - apply sort_Sort_Permutation.
Qed.

(** Two emissions of the same operations, no two at one path, are sorted
    into the same sequence. *)
Lemma sort_ByPath_unique l1 l2 :
  l1 ≡ₚ l2 → NoDup (jsonpatch.Path <$> l1) →
  sort_Sort jsonpatch.ByPath_Less l1 = sort_Sort jsonpatch.ByPath_Less l2.
Proof.
  intros E Hnd.
  destruct (sort_ByPath_sorted l1) as [Hs1 Hp1], (sort_ByPath_sorted l2) as [Hs2 Hp2].
  apply (Sorted_unique_strong path_le); [|done..|by rewrite Hp1, Hp2].
  intros x1 x2 Hx1 Hx2 H12 H21.
  rewrite Hp1 in Hx1. rewrite Hp2, <- E in Hx2.
  assert (jsonpatch.Path x1 = jsonpatch.Path x2) as Hpath
    by (by apply (anti_symm String.le)).
  clear -Hx1 Hx2 Hpath Hnd.
  induction l1 as [|y l1 IH]; [by inv Hx1|].
  cbn in Hnd. apply NoDup_cons in Hnd as [Hy Hnd].
  inv Hx1; inv Hx2; try done.
  - destruct Hy. rewrite Hpath. by apply list_elem_of_fmap_2.
  - destruct Hy. rewrite <- Hpath. by apply list_elem_of_fmap_2.
  - by apply IH.
Qed.

(** ** Documents *)

Lemma field_None k fs : field k fs = None ↔ k ∉ fs.*1.
Proof.
  induction fs as [|[k' v] fs IH]; cbn.
  - split; [intros _; apply not_elem_of_nil | done].
  - rewrite not_elem_of_cons. case_decide as Hk.
    + split; [done|]. by intros [? _].
    + rewrite IH. by split; [|intros [_ ?]].
Qed.

Lemma field_Some_elem k v fs : field k fs = Some v → (k, v) ∈ fs.
Proof.
  induction fs as [|[k' v'] fs IH]; cbn; [done|].
  case_decide; intros; simplify_eq; [left | right; auto].
Qed.

Lemma field_elem_Some k v fs : NoDup (fs.*1) → (k, v) ∈ fs → field k fs = Some v.
Proof.
  induction fs as [|[k' v'] fs IH]; cbn; [by intros _ ?%elem_of_nil|].
  intros [Hk Hnd]%NoDup_cons Hin. apply elem_of_cons in Hin as [?|Hin]; simplify_eq.
  - by rewrite decide_True.
  - rewrite decide_False; [by apply IH|].
    intros ->. apply Hk. by apply (list_elem_of_fmap_2 fst _ (k', v)).
Qed.

Lemma wf_json_field k v fs : wf_json (JObject fs) → field k fs = Some v → wf_json v.
Proof.
  intros Hwf Hf. inv Hwf. apply field_Some_elem in Hf.
  match goal with H : Forall _ fs |- _ => rewrite Forall_forall in H; by apply (H (k, v)) end.
Qed.

Lemma diff_array_refl p l i :
  Forall (λ x, ∀ p, jsonpatch.diff_value x x p = []) l →
  jsonpatch.diff_array jsonpatch.diff_value p l l i = [].
Proof.
  intros H. revert i. induction H as [|x l Hx _ IH]; intros i; cbn; [done|].
  by rewrite Hx, IH.
Qed.

Lemma diff_fields_refl p fb fs :
  Forall (λ kv, field kv.1 fb = Some kv.2 ∧ ∀ p, jsonpatch.diff_value kv.2 kv.2 p = []) fs →
  jsonpatch.diff_fields jsonpatch.diff_value p fb fs = [].
Proof.
  induction 1 as [|[k v] fs [Hf Hd] _ IH]; cbn in *; [done|].
  by rewrite Hf, Hd, IH.
Qed.

Lemma added_fields_present p fa fb :
  Forall (λ kv, is_Some (field kv.1 fa)) fb → jsonpatch.added_fields p fa fb = [].
Proof.
  unfold jsonpatch.added_fields.
  induction 1 as [|kv fb [v Hv] _ IH]; cbn; [done|]. by rewrite Hv, IH.
Qed.

(** Equal documents give no operation. *)
Lemma diff_value_refl j : wf_json j → ∀ p, jsonpatch.diff_value j j p = [].
Proof.
  induction j as [| b | s | l IH | fs IH] using json_induction; intros Hwf p; cbn.
  - done.
  - by rewrite decide_True.
  - by rewrite decide_True.
  - inv Hwf. apply diff_array_refl.
    match goal with H : Forall wf_json l |- _ => rename H into Hl end.
    induction IH as [|x l Hx _ IHl]; [done|]. inv Hl. constructor; auto.
  - inv Hwf.
    match goal with H : NoDup _ |- _ => rename H into Hnd end.
    match goal with H : Forall _ fs |- _ => rename H into Hl end.
    rewrite diff_fields_refl, added_fields_present; [done| |].
    + apply Forall_forall. intros [k v] Hin. exists v. by apply field_elem_Some.
    + rewrite Forall_forall in IH, Hl. apply Forall_forall. intros [k v] Hin. cbn. split.
      * by apply field_elem_Some.
      * apply (IH _ Hin). by apply (Hl _ Hin).
Qed.

Lemma wf_strings (l : list string) : wf_json (JArray (JString <$> l)).
Proof. constructor. induction l; constructor; [constructor | done]. Qed.

Lemma wf_omitempty_string k v : Forall (λ kv, wf_json kv.2) (omitempty_string k v).
Proof. unfold omitempty_string. case_decide; repeat constructor. Qed.

Lemma wf_omitempty_bool k b : Forall (λ kv, wf_json kv.2) (omitempty_bool k b).
Proof. destruct b; repeat constructor. Qed.

Lemma wf_omitempty_strings k l : Forall (λ kv, wf_json kv.2) (omitempty_strings k l).
Proof.
  destruct l as [|x l]; [constructor|].
  constructor; [|constructor]. apply (wf_strings (x :: l)).
Qed.

Lemma wf_omitempty_map k m : Forall (λ kv, wf_json kv.2) (omitempty_map k m).
Proof.
  destruct m as [m|]; cbn; [|constructor]. case_decide; repeat constructor.
  - rewrite <- list_fmap_compose.
    replace (fst ∘ prod_map id JString) with (@fst string string) by done.
    apply NoDup_fst_map_to_list.
  - apply Forall_fmap, Forall_forall. intros [??] _. constructor.
Qed.

Lemma keys_omitempty_string k v : (omitempty_string k v).*1 `sublist_of` [k].
Proof. unfold omitempty_string. case_decide; cbn; [apply sublist_nil_l | done]. Qed.

Lemma keys_omitempty_bool k b : (omitempty_bool k b).*1 `sublist_of` [k].
Proof. destruct b; cbn; [done | apply sublist_nil_l]. Qed.

Lemma keys_omitempty_strings k l : (omitempty_strings k l).*1 `sublist_of` [k].
Proof. destruct l; cbn; [apply sublist_nil_l | done]. Qed.

Lemma keys_omitempty_map k m : (omitempty_map k m).*1 `sublist_of` [k].
Proof.
  destruct m as [m|]; cbn; [|apply sublist_nil_l].
  case_decide; cbn; [apply sublist_nil_l | done].
Qed.

Lemma sublist_cons_app {A} (l1 l2 : list A) k ks :
  l1 `sublist_of` [k] → l2 `sublist_of` ks → l1 ++ l2 `sublist_of` k :: ks.
Proof. intros. by apply (sublist_app l1 [k] l2 ks). Qed.

Lemma wf_encode_ObjectMeta o : wf_json (encode_ObjectMeta o).
Proof.
  constructor.
  - apply (sublist_NoDup _ ["name"; "namespace"; "labels"; "annotations"]);
      [compute_done|].
    rewrite !fmap_app.
    repeat apply sublist_cons_app;
      auto using keys_omitempty_string, keys_omitempty_map.
  - rewrite !Forall_app. auto using wf_omitempty_string, wf_omitempty_map.
Qed.

Lemma wf_encode_Container c : wf_json (encode_Container c).
Proof.
  constructor.
  - apply (sublist_NoDup _ ["name"; "image"; "command"; "args"; "resources"]);
      [compute_done|].
    rewrite !fmap_app.
    repeat apply sublist_cons_app;
      auto using keys_omitempty_string, keys_omitempty_strings.
  - rewrite !Forall_app.
    repeat split; auto using wf_omitempty_string, wf_omitempty_strings;
      repeat constructor.
Qed.

Lemma wf_encode_PodSpec s : wf_json (encode_PodSpec s).
Proof.
  constructor.
  - apply (sublist_NoDup _ ["containers"; "dnsPolicy"; "hostNetwork"; "dnsConfig"]);
      [compute_done|].
    rewrite !fmap_app.
    repeat apply sublist_cons_app;
      auto using keys_omitempty_string, keys_omitempty_bool.
    destruct (core.DNSConfig s); cbn; [done | apply sublist_nil_l].
  - rewrite !Forall_app.
    repeat split; auto using wf_omitempty_string, wf_omitempty_bool.
    + constructor; [|constructor]. cbn [snd].
      destruct (core.Containers s) as [|c cs]; [constructor|].
      constructor. apply (proj2 (Forall_fmap encode_Container wf_json (c :: cs))), Forall_forall.
      intros ? _. apply wf_encode_Container.
    + destruct (core.DNSConfig s) as [d|]; repeat constructor.
      * apply (sublist_NoDup _ ["nameservers"]); [compute_done|].
        apply keys_omitempty_strings.
      * apply wf_omitempty_strings.
Qed.

(** The serializer writes a pod as a document with no repeated key. *)
Lemma wf_encode_Pod pod : wf_json (encode_Pod pod).
Proof.
  constructor; [compute_done|].
  constructor; [apply wf_encode_ObjectMeta|].
  constructor; [apply wf_encode_PodSpec | constructor].
Qed.

(** ** The patch *)

Lemma mergeString_empty c d : mergo.mergeString c d EmptyString = d.
Proof. unfold mergo.mergeString. by rewrite decide_True. Qed.

Lemma mergeSlice_empty {A} c (d : list A) : mergo.mergeSlice c d [] = d.
Proof. unfold mergo.mergeSlice. destruct (mergo.AppendSlice c); [apply app_nil_r | done]. Qed.

(** Merging an empty template changes nothing, whatever the strategy. *)
Lemma inject_empty_template (m : PodMutation) (original : core.Pod) :
  template_pod m = barePod → PodMutation_inject m original = Ok original.
Proof.
  intros E. rewrite PodMutation_inject_Ok. cbv zeta. rewrite E.
  destruct original as [[n ns lb an] [cs dp hn dc]]. cbn.
  rewrite !mergeString_empty, mergeSlice_empty. by destruct dc.
Qed.

Lemma PodMutation_Patch_Ok emission m original injected :
  PodMutation_inject m original = Ok injected →
  PodMutation_Patch emission m original =
  json_Marshal
    (sort_Sort jsonpatch.ByPath_Less
       (emission (jsonpatch.diff_value (encode_Pod original) (encode_Pod injected)
                    EmptyString))).
Proof. intros Hi. unfold PodMutation_Patch. by rewrite Hi. Qed.

(** C6: [Patch] with the empty [PodMutation] succeeds on every pod: the
    merge returns the pod unchanged, the two encodings differ in no
    operation, and the payload is the two bytes of the empty sequence. *)
Theorem Patch_empty_mutation_is_noop
    (emission : list jsonpatch.Operation → list jsonpatch.Operation) (O : core.Pod) :
  (∀ l, emission l ≡ₚ l) →
  PodMutation_inject emptyPodMutation O = Ok O ∧
  jsonpatch.CreatePatch emission (encode_Pod O) (encode_Pod O) = Ok [] ∧
  PodMutation_Patch emission emptyPodMutation O = Ok "[]".
Proof.
  intros He.
  assert (PodMutation_inject emptyPodMutation O = Ok O) as Hi
    by (by apply inject_empty_template).
  assert (emission (jsonpatch.diff_value (encode_Pod O) (encode_Pod O) EmptyString) = [])
    as Hd.
  { rewrite diff_value_refl by apply wf_encode_Pod. apply Permutation_nil_r, He. }
  split; [done|]. split.
  - unfold jsonpatch.CreatePatch. cbn [encode_Pod]. fold (encode_Pod O). by rewrite Hd.
  - rewrite (PodMutation_Patch_Ok _ _ _ O) by done. by rewrite Hd.
Qed.

Lemma Patch_empty_mutation_is_noop_witness :
  PodMutation_Patch reverse emptyPodMutation coolPod = Ok "[]".
Proof.
  apply (Patch_empty_mutation_is_noop reverse coolPod).
  intros l. apply reverse_Permutation.
Defined.

(** ** The paths of a patch *)

Lemma index_paths_disjoint p i j q :
  under (jsonpatch.makeIndex p i) q → under (jsonpatch.makeIndex p j) q → i = j.
Proof.
  intros Hi Hj. apply itoa_inj.
  apply (token_disjoint p _ _ q); auto using no_slash_itoa.
Qed.

Lemma key_paths_disjoint p k1 k2 q :
  under (jsonpatch.makePath p k1) q → under (jsonpatch.makePath p k2) q → k1 = k2.
Proof.
  intros H1 H2. apply rfc6901Encode_inj.
  apply (token_disjoint p _ _ q); auto using no_slash_rfc6901Encode.
Qed.

Lemma adds_from_paths p l i op :
  op ∈ jsonpatch.adds_from p l i →
  ∃ j, (i ≤ j)%nat ∧ jsonpatch.Path op = jsonpatch.makeIndex p j.
Proof.
  revert i. induction l as [|b l IH]; intros i; cbn; [by intros ?%elem_of_nil|].
  intros [->|Hin]%elem_of_cons.
  - exists i. by split.
  - destruct (IH _ Hin) as (j & Hj & E). exists j. split; [lia | done].
Qed.

Lemma diff_array_paths p la lb i op :
  Forall (λ x, ∀ b p op, op ∈ jsonpatch.diff_value x b p → under p (jsonpatch.Path op)) la →
  op ∈ jsonpatch.diff_array jsonpatch.diff_value p la lb i →
  ∃ j, (i ≤ j)%nat ∧ under (jsonpatch.makeIndex p j) (jsonpatch.Path op).
Proof.
  intros H. revert lb i. induction H as [|a la Ha _ IH]; intros lb i; cbn.
  - intros (j & Hj & E)%adds_from_paths. exists j. split; [done|].
    rewrite E. apply under_refl.
  - destruct lb as [|b lb].
    + intros [->|Hin]%elem_of_cons.
      * exists i. split; [done | apply under_refl].
      * destruct (IH _ _ Hin) as (j & Hj & Hu). exists j. split; [lia | done].
    + intros [Hin|Hin]%elem_of_app.
      * exists i. split; [done | by apply (Ha b)].
      * destruct (IH _ _ Hin) as (j & Hj & Hu). exists j. split; [lia | done].
Qed.

Lemma diff_fields_paths p fb fs op :
  Forall (λ kv, ∀ b p op, op ∈ jsonpatch.diff_value kv.2 b p → under p (jsonpatch.Path op)) fs →
  op ∈ jsonpatch.diff_fields jsonpatch.diff_value p fb fs →
  ∃ k, k ∈ fs.*1 ∧ under (jsonpatch.makePath p k) (jsonpatch.Path op).
Proof.
  induction 1 as [|[k av] fs Ha _ IH]; cbn in *; [by intros ?%elem_of_nil|].
  intros [Hin|Hin]%elem_of_app.
  - exists k. split; [left|]. destruct (field k fb) as [bv|].
    + by apply (Ha bv).
    + apply list_elem_of_singleton in Hin as ->. apply under_refl.
  - destruct (IH Hin) as (k' & Hk' & Hu). exists k'. split; [by right | done].
Qed.

Lemma added_fields_paths p fa fb op :
  op ∈ jsonpatch.added_fields p fa fb →
  ∃ k, k ∈ fb.*1 ∧ field k fa = None ∧ jsonpatch.Path op = jsonpatch.makePath p k.
Proof.
  unfold jsonpatch.added_fields.
  induction fb as [|[k v] fb IH]; cbn; [by intros ?%elem_of_nil|].
  intros [Hin|Hin]%elem_of_app.
  - destruct (field k fa) eqn:E; [by apply elem_of_nil in Hin|].
    apply list_elem_of_singleton in Hin as ->. exists k. split; [left | done].
  - destruct (IH Hin) as (k' & Hk' & HN & E). exists k'. split; [by right | done].
Qed.

(** Every operation of the difference below [p] has its path at or below [p]. *)
Lemma diff_value_paths a : ∀ b p op,
  op ∈ jsonpatch.diff_value a b p → under p (jsonpatch.Path op).
Proof.
  induction a as [| x | s | la IH | fa IH] using json_induction; intros b p op Hin.
  - destruct b; cbn in Hin; try by apply elem_of_nil in Hin.
    all: apply list_elem_of_singleton in Hin as ->; apply under_refl.
  - destruct b; cbn in Hin; try case_decide; try by apply elem_of_nil in Hin.
    all: apply list_elem_of_singleton in Hin as ->; apply under_refl.
  - destruct b; cbn in Hin; try case_decide; try by apply elem_of_nil in Hin.
    all: apply list_elem_of_singleton in Hin as ->; apply under_refl.
  - destruct b as [| | | lb |]; cbn in Hin.
    1-3,5: apply list_elem_of_singleton in Hin as ->; apply under_refl.
    destruct (diff_array_paths _ _ _ _ _ IH Hin) as (j & _ & Hu).
    by apply under_token in Hu.
  - destruct b as [| | | | fb]; cbn in Hin.
    1-4: apply list_elem_of_singleton in Hin as ->; apply under_refl.
    apply elem_of_app in Hin as [Hin|Hin].
    + destruct (diff_fields_paths _ _ _ _ IH Hin) as (k & _ & Hu).
      by apply under_token in Hu.
    + destruct (added_fields_paths _ _ _ _ Hin) as (k & _ & _ & E).
      rewrite E. apply (under_token p (jsonpatch.rfc6901Encode k)), under_refl.
Qed.

Lemma makeIndex_inj p i j : jsonpatch.makeIndex p i = jsonpatch.makeIndex p j → i = j.
Proof.
  intros E. apply (index_paths_disjoint p i j (jsonpatch.makeIndex p i)).
  - apply under_refl.
  - rewrite E. apply under_refl.
Qed.

Lemma makePath_inj p k1 k2 : jsonpatch.makePath p k1 = jsonpatch.makePath p k2 → k1 = k2.
Proof.
  intros E. apply (key_paths_disjoint p k1 k2 (jsonpatch.makePath p k1)).
  - apply under_refl.
  - rewrite E. apply under_refl.
Qed.

Lemma NoDup_adds_from p l i : NoDup (jsonpatch.Path <$> jsonpatch.adds_from p l i).
Proof.
  revert i. induction l as [|b l IH]; intros i; cbn; [constructor|].
  apply NoDup_cons. split; [|apply IH].
  intros (op & E & Hin)%list_elem_of_fmap.
  apply adds_from_paths in Hin as (j & Hj & E'). rewrite E' in E.
  apply makeIndex_inj in E. lia.
Qed.

Lemma NoDup_diff_array p la : ∀ lb i,
  Forall (λ x, ∀ b p, wf_json x → wf_json b →
                      NoDup (jsonpatch.Path <$> jsonpatch.diff_value x b p)) la →
  Forall wf_json la → Forall wf_json lb →
  NoDup (jsonpatch.Path <$> jsonpatch.diff_array jsonpatch.diff_value p la lb i).
Proof.
  induction la as [|a la IHla]; intros lb i IH Hla Hlb; cbn.
  - apply NoDup_adds_from.
  - inv IH. inv Hla.
    assert (Forall (λ x, ∀ b p op, op ∈ jsonpatch.diff_value x b p →
                                   under p (jsonpatch.Path op)) la) as Hpaths
      by (apply Forall_forall; intros x _; apply diff_value_paths).
    destruct lb as [|b lb].
    + cbn. apply NoDup_cons. split; [|by apply IHla].
      intros (op & E & Hin)%list_elem_of_fmap.
      apply (diff_array_paths _ _ _ _ _ Hpaths) in Hin as (j & Hj & Hu).
      rewrite <- E in Hu. cbn in Hu.
      pose proof (index_paths_disjoint p i j _ (under_refl _) Hu). lia.
    + inv Hlb. rewrite fmap_app. apply NoDup_app. repeat split; [by auto| |by apply IHla].
      intros q (op1 & -> & Hin1)%list_elem_of_fmap (op2 & E & Hin2)%list_elem_of_fmap.
      apply diff_value_paths in Hin1.
      apply (diff_array_paths _ _ _ _ _ Hpaths) in Hin2 as (j & Hj & Hu).
      rewrite <- E in Hu.
      pose proof (index_paths_disjoint p i j _ Hin1 Hu). lia.
Qed.

Lemma NoDup_diff_fields p fb fs :
  Forall (λ kv, ∀ b p, wf_json kv.2 → wf_json b →
                       NoDup (jsonpatch.Path <$> jsonpatch.diff_value kv.2 b p)) fs →
  NoDup (fs.*1) → Forall (λ kv, wf_json kv.2) fs → wf_json (JObject fb) →
  NoDup (jsonpatch.Path <$> jsonpatch.diff_fields jsonpatch.diff_value p fb fs).
Proof.
  intros IH Hnd Hfs Hfb. induction fs as [|[k av] fs IHfs]; cbn; [constructor|].
  inv IH. inv Hfs. cbn in Hnd. apply NoDup_cons in Hnd as [Hk Hnd].
  rewrite fmap_app. apply NoDup_app. repeat split; [| |by apply IHfs].
  - destruct (field k fb) as [bv|] eqn:Hf.
    + match goal with H : ∀ b p, _ |- _ => apply H end; [done|].
      by apply (wf_json_field k bv fb).
    + cbn. apply NoDup_singleton.
  - intros q (op1 & -> & Hin1)%list_elem_of_fmap (op2 & E & Hin2)%list_elem_of_fmap.
    assert (under (jsonpatch.makePath p k) (jsonpatch.Path op1)) as Hu1.
    { destruct (field k fb) as [bv|].
      - by apply diff_value_paths in Hin1.
      - apply list_elem_of_singleton in Hin1 as ->. apply under_refl. }
    apply diff_fields_paths in Hin2 as (k' & Hk' & Hu2);
      [|apply Forall_forall; intros x _; apply diff_value_paths].
    rewrite <- E in Hu2.
    pose proof (key_paths_disjoint p k k' _ Hu1 Hu2). by subst.
Qed.

Lemma NoDup_added_fields p fa fb :
  NoDup (fb.*1) →
  NoDup (jsonpatch.Path <$> jsonpatch.added_fields p fa fb).
Proof.
  intros Hnd. induction fb as [|[k v] fb IH]; [constructor|].
  cbn in Hnd. apply NoDup_cons in Hnd as [Hk Hnd].
  change (jsonpatch.added_fields p fa ((k, v) :: fb))
    with (match field k fa with
          | None => [jsonpatch.NewPatch "add" (jsonpatch.makePath p k) (Some v)]
          | Some _ => []
          end ++ jsonpatch.added_fields p fa fb).
  rewrite fmap_app. apply NoDup_app. repeat split; [| |by apply IH].
  - destruct (field k fa); [constructor | apply NoDup_singleton].
  - intros q (op1 & -> & Hin1)%list_elem_of_fmap (op2 & E & Hin2)%list_elem_of_fmap.
    destruct (field k fa); [by apply elem_of_nil in Hin1|].
    apply list_elem_of_singleton in Hin1 as ->.
    apply added_fields_paths in Hin2 as (k' & Hk' & _ & E'). rewrite E' in E.
    apply makePath_inj in E. by subst.
Qed.

(** No two operations of the difference of two documents have one path. *)
Lemma NoDup_diff_value a : ∀ b p,
  wf_json a → wf_json b → NoDup (jsonpatch.Path <$> jsonpatch.diff_value a b p).
Proof.
  induction a as [| x | s | la IH | fa IH] using json_induction; intros b p Ha Hb.
  - destruct b; cbn; first [apply NoDup_nil_2 | apply NoDup_singleton].
  - destruct b; cbn; try case_decide; first [apply NoDup_nil_2 | apply NoDup_singleton].
  - destruct b; cbn; try case_decide; first [apply NoDup_nil_2 | apply NoDup_singleton].
  - destruct b as [| | | lb |]; cbn; try apply NoDup_singleton.
    inv Ha. inv Hb. by apply NoDup_diff_array.
  - destruct b as [| | | | fb]; cbn; try apply NoDup_singleton.
    pose proof Hb as Hb'. inv Ha. inv Hb.
    rewrite fmap_app. apply NoDup_app. repeat split.
    + by apply NoDup_diff_fields.
    + intros q (op1 & -> & Hin1)%list_elem_of_fmap (op2 & E & Hin2)%list_elem_of_fmap.
      apply diff_fields_paths in Hin1 as (k & Hk & Hu1);
        [|apply Forall_forall; intros x _; apply diff_value_paths].
      apply added_fields_paths in Hin2 as (k' & _ & HN & E').
      rewrite E, E' in Hu1.
      pose proof (key_paths_disjoint p k k' _ Hu1 (under_refl _)). subst.
      by apply field_None in HN.
    + by apply NoDup_added_fields.
Qed.

(** With the diff of section 4.2 the sort by path alone would fix the
    payload: that diff never puts two operations on one path
    ([NoDup_diff_value]), so whatever the order in which two runs emit the
    operations, the sorted sequences, and with them the bytes, are the
    same.  The library the package links does put two operations on one
    path, as the properties of [Linked.Patch] further down show. *)
Lemma Patch_over_section_4_2_diff
    (e1 e2 : list jsonpatch.Operation → list jsonpatch.Operation)
    (m : PodMutation) (original : core.Pod) :
  (∀ l, e1 l ≡ₚ l) → (∀ l, e2 l ≡ₚ l) →
  (∃ injected ops patch b,
     PodMutation_inject m original = Ok injected ∧
     jsonpatch.CreatePatch e1 (encode_Pod original) (encode_Pod injected) = Ok ops ∧
     patch ≡ₚ ops ∧ Sorted path_le patch ∧
     json_Marshal patch = Ok b ∧
     PodMutation_Patch e1 m original = Ok b) ∧
  PodMutation_Patch e1 m original = PodMutation_Patch e2 m original.
Proof.
  intros He1 He2.
  destruct (PodMutation_inject m original) as [injected|err] eqn:Hi;
    [|by rewrite PodMutation_inject_Ok in Hi].
  set (d := jsonpatch.diff_value (encode_Pod original) (encode_Pod injected) EmptyString).
  split.
  - exists injected, (e1 d), (sort_Sort jsonpatch.ByPath_Less (e1 d)).
    eexists. split; [done|]. split; [reflexivity|].
    destruct (sort_ByPath_sorted (e1 d)) as [Hs Hp].
    split; [done|]. split; [done|]. split; [reflexivity|].
    by rewrite (PodMutation_Patch_Ok _ _ _ injected).
  - rewrite !(PodMutation_Patch_Ok _ _ _ injected) by done. fold d. f_equal.
    apply sort_ByPath_unique.
    + by rewrite He1, He2.
    + rewrite He1. apply NoDup_diff_value; apply wf_encode_Pod.
Qed.

(** The cases of [TestPatch], byte for byte. *)
Example TestPatch_NoOp :
  PodMutation_Patch id emptyPodMutation coolPod = Ok "[]".
Proof. vm_compute. reflexivity. Qed.

Example TestPatch_AddAnnotation :
  PodMutation_Patch id addAnnotation coolPod =
  Ok (dq "[{'op':'add','path':'/metadata/annotations/supercool','value':'alsotrue'}]").
Proof. vm_compute. reflexivity. Qed.

Example TestPatch_AddContainer :
  PodMutation_Patch id addContainer coolPod =
  Ok (dq ("[{'op':'add','path':'/spec/containers/1','value':" +:+
          "{'image':'extracool:somehowmorecool','name':'coolercontainer','resources':{}}}]")).
Proof. vm_compute. reflexivity. Qed.

Example TestPatch_OverrideNameservers :
  PodMutation_Patch reverse overrideNameservers coolPod =
  Ok (dq ("[{'op':'add','path':'/spec/dnsConfig','value':{'nameservers':['127.0.0.1']}}," +:+
          "{'op':'replace','path':'/spec/dnsPolicy','value':'None'}]")).
Proof. vm_compute. reflexivity. Qed.

(** The earlier revision encodes the operations as they were emitted, so
    its payload follows the emission order: one order gives the bytes its
    test expects, the reverse order gives other bytes. *)
Example Prior_Patch_follows_emission :
  Prior.Patch id priorOverrideNameservers coolPod =
    Ok (dq ("[{'op':'replace','path':'/spec/dnsPolicy','value':'None'}," +:+
            "{'op':'add','path':'/spec/dnsConfig','value':{'nameservers':['127.0.0.1']}}]")) ∧
  Prior.Patch reverse priorOverrideNameservers coolPod ≠
    Prior.Patch id priorOverrideNameservers coolPod.
Proof. split; [vm_compute; reflexivity|]. vm_compute. discriminate. Qed.

(** * [Patch] over the libraries it links *)

(** A sequence in ascending order of path, no two operations on one path,
    is fixed by the operations it holds. *)
Lemma Sorted_ByPath_unique l1 l2 :
  l1 ≡ₚ l2 → NoDup (jsonpatch.Path <$> l1) →
  Sorted path_le l1 → Sorted path_le l2 → l1 = l2.
Proof.
  intros E Hnd Hs1 Hs2.
  apply (Sorted_unique_strong path_le); [|done..].
  intros x1 x2 Hx1 Hx2 H12 H21. rewrite <- E in Hx2.
  assert (jsonpatch.Path x1 = jsonpatch.Path x2) as Hpath
    by (by apply (anti_symm String.le)).
  clear -Hx1 Hx2 Hpath Hnd.
  induction l1 as [|y l1 IH]; [by inv Hx1|].
  cbn in Hnd. apply NoDup_cons in Hnd as [Hy Hnd].
  inv Hx1; inv Hx2; try done.
  - destruct Hy. rewrite Hpath. by apply list_elem_of_fmap_2.
  - destruct Hy. rewrite <- Hpath. by apply list_elem_of_fmap_2.
  - by apply IH.
Qed.

Lemma sorts_ByPath_stable : sorts_ByPath Sort_stable.
Proof. intros patch. destruct (sort_ByPath_sorted patch). by split. Qed.

Lemma sorts_ByPath_unstable : sorts_ByPath Sort_unstable.
Proof.
  intros patch. unfold Sort_unstable.
  destruct (sort_ByPath_sorted (reverse patch)) as [Hs Hp].
  split; [|done]. by rewrite Hp, reverse_Permutation.
Qed.

Section LinkedPatch.
Variables (emission Sort : list jsonpatch.Operation → list jsonpatch.Operation)
          (compact : string → result string).

Lemma Linked_Patch_Ok m original injected :
  PodMutation_inject m original = Ok injected →
  Linked.Patch emission Sort compact m original =
  match Linked.json_Marshal compact
          (Sort (emission (appscode.handleValues (encode_Pod original)
                             (encode_Pod injected) EmptyString))) with
  | Err err => Err (errors_Wrap err "cannot encode patch as JSON")
  | Ok b => Ok b
  end.
Proof. intros Hi. unfold Linked.Patch. by rewrite Hi. Qed.

(** What the sort achieves: a payload [Patch] returns is the encoding of
    the operations [CreatePatch] emitted, in ascending order of path. *)
Lemma Linked_Patch_sorted m original b :
  sorts_ByPath Sort →
  Linked.Patch emission Sort compact m original = Ok b →
  ∃ injected ops patch,
    PodMutation_inject m original = Ok injected ∧
    appscode.CreatePatch emission (encode_Pod original) (encode_Pod injected) = Ok ops ∧
    patch ≡ₚ ops ∧ Sorted path_le patch ∧
    Linked.json_Marshal compact patch = Ok b.
Proof.
  intros HS Hb.
  destruct (PodMutation_inject m original) as [injected|err] eqn:Hi;
    [|by rewrite PodMutation_inject_Ok in Hi].
  rewrite (Linked_Patch_Ok _ _ injected) in Hb by done.
  exists injected. eexists _, _. split; [done|]. split; [reflexivity|].
  destruct (HS (emission (appscode.handleValues (encode_Pod original)
                            (encode_Pod injected) EmptyString))) as [Hp Hs].
  split; [done|]. split; [done|].
  by destruct (Linked.json_Marshal _ _).
Qed.

Lemma marshal_elements_Err patch :
  Exists (λ j, ∃ err, compact (appscode.MarshalJSON j) = Err err) patch →
  ∃ err, Linked.marshal_elements compact patch = Err err.
Proof.
  induction patch as [|j patch IH]; intros Hex; [by inv Hex|]. cbn.
  destruct (compact (appscode.MarshalJSON j)) as [text|err] eqn:Hj; [|by eexists].
  inv Hex as [?? (err & He)|?? Hex']; [by rewrite Hj in He|].
  destruct (IH Hex') as (err & ->). by eexists.
Qed.

(** The exit on [json.Marshal] is taken as soon as [encoding/json]
    refuses the text of one operation, as it does the text of a path that
    holds a double quote. *)
Lemma Linked_Patch_marshal_error m original injected :
  PodMutation_inject m original = Ok injected →
  Exists (λ j, ∃ err, compact (appscode.MarshalJSON j) = Err err)
    (Sort (emission (appscode.handleValues (encode_Pod original) (encode_Pod injected)
                       EmptyString))) →
  ∃ err, Linked.Patch emission Sort compact m original =
         Err ("cannot encode patch as JSON: " +:+ err).
Proof.
  intros Hi Hex. rewrite (Linked_Patch_Ok _ _ injected) by done.
  destruct (marshal_elements_Err _ Hex) as (err & He). exists err.
  unfold Linked.json_Marshal. by rewrite He.
Qed.
End LinkedPatch.

(** Where the operations lie on paths that differ from one another, the
    sort settles the payload: whatever the order of emission and whatever
    [sort.Sort] does with equal elements, two calls return the same. *)
Lemma Linked_Patch_distinct_paths e1 e2 Sort1 Sort2 compact m original injected :
  (∀ l, e1 l ≡ₚ l) → (∀ l, e2 l ≡ₚ l) → sorts_ByPath Sort1 → sorts_ByPath Sort2 →
  PodMutation_inject m original = Ok injected →
  NoDup (jsonpatch.Path <$>
           appscode.handleValues (encode_Pod original) (encode_Pod injected) EmptyString) →
  Linked.Patch e1 Sort1 compact m original = Linked.Patch e2 Sort2 compact m original.
Proof.
  intros He1 He2 HS1 HS2 Hi Hnd.
  rewrite !(Linked_Patch_Ok _ _ _ _ _ injected) by done.
  set (d := appscode.handleValues (encode_Pod original) (encode_Pod injected) EmptyString)
    in *.
  destruct (HS1 (e1 d)) as [Hp1 Hs1], (HS2 (e2 d)) as [Hp2 Hs2].
  rewrite (Sorted_ByPath_unique (Sort1 (e1 d)) (Sort2 (e2 d))); [done| | |done..].
  - by rewrite Hp1, Hp2, He1, He2.
  - by rewrite Hp1, He1.
Qed.

Lemma ByPath_Less_irrefl a z :
  jsonpatch.ByPath_Less a z = true → ¬ path_le z a.
Proof.
  unfold jsonpatch.ByPath_Less, path_le, String.le, String.ltb, String.leb.
  rewrite (String.compare_antisym (jsonpatch.Path a)).
  destruct (String.compare _ _); cbn; [done|done|by intros _ []].
Qed.

(** A sequence whose operations [A] lie on ascending paths, all below the
    paths of [x] and [y], has two arrangements in ascending order of path
    at most: the two orders of [x] and [y] after [A]. *)
Lemma Sorted_ByPath_tie A x y l :
  ascending_below A [x; y] = true →
  l ≡ₚ A ++ [x; y] → Sorted path_le l →
  l = A ++ [x; y] ∨ l = A ++ [y; x].
Proof.
  revert l. induction A as [|a A IH]; intros l Hasc Hp Hs.
  - cbn in Hp. symmetry in Hp. by apply Permutation_length_2_inv in Hp.
  - cbn in Hasc. apply andb_prop in Hasc as [Ha Hasc].
    rewrite forallb_forall in Ha.
    destruct l as [|h l]; [by apply Permutation_nil_cons in Hp|].
    assert (h = a) as ->.
    { assert (h ∈ a :: A ++ [x; y]) as Hh by (rewrite <- Hp; left).
      apply elem_of_cons in Hh as [->|Hh]; [done|].
      assert (jsonpatch.ByPath_Less a h = true) as Hlt
        by (by apply Ha, list_elem_of_In).
      assert (a ∈ h :: l) as Hin by (rewrite Hp; left).
      apply elem_of_cons in Hin as [->|Hin]; [done|].
      apply Sorted_StronglySorted in Hs; [|apply _].
      apply StronglySorted_inv in Hs as [_ Hall].
      rewrite List.Forall_forall in Hall.
      destruct (ByPath_Less_irrefl _ _ Hlt). by apply Hall, list_elem_of_In. }
    apply Permutation_cons_inv in Hp. apply Sorted_inv in Hs as [Hs _].
    destruct (IH l Hasc Hp Hs) as [->| ->]; [by left | by right].
Qed.

Lemma json_Marshal_accepting patch :
  Linked.json_Marshal Ok patch =
  Ok ("[" +:+ strings_Join (appscode.MarshalJSON <$> patch) "," +:+ "]").
Proof.
  unfold Linked.json_Marshal.
  assert (Linked.marshal_elements Ok patch = Ok (appscode.MarshalJSON <$> patch)) as ->; [|done].
  induction patch as [|j patch IH]; [done|]. cbn. by rewrite IH.
Qed.

(** C1: [Patch] sorts the operations by path, and that does not fix the
    payload.  For the pod with one name server and the mutation that
    appends two, [CreatePatch] emits two [add]s on the one path
    [/spec/dnsConfig/nameservers/1], with different values.  Whatever the
    order of emission and whatever sort meets the contract of [sort.Sort],
    the payload is one of two: the twelve annotations followed by the two
    [add]s in one order or in the other.  Each of the two is the outcome
    of a sort that meets the contract, and they differ in their bytes (and
    in the list of name servers they produce when applied: only the first
    gives the merged list).  [encoding/json] leaves the texts of these
    operations as they are, so [compact] is [Ok] here. *)
Theorem Patch_payload_not_determined :
  let path := "/spec/dnsConfig/nameservers/1" in
  let add3 := jsonpatch.NewPatch "add" path (Some (JString "10.0.0.3")) in
  let add2 := jsonpatch.NewPatch "add" path (Some (JString "10.0.0.2")) in
  let annotations :=
    (λ k, jsonpatch.NewPatch "add" ("/metadata/annotations/" +:+ k) (Some (JString "x")))
      <$> appendedAnnotations in
  (∃ injected ops,
     PodMutation_inject appendResolvers resolverPod = Ok injected ∧
     core.DNSConfig (core.Spec injected) =
       Some {| core.Nameservers := ["10.0.0.1"; "10.0.0.2"; "10.0.0.3"] |} ∧
     appscode.CreatePatch id (encode_Pod resolverPod) (encode_Pod injected) = Ok ops ∧
     ops ≡ₚ annotations ++ [add3; add2] ∧
     filter (λ j, jsonpatch.Path j = path) ops = [add3; add2]) ∧
  (∀ emission Sort,
     (∀ l, emission l ≡ₚ l) → sorts_ByPath Sort →
     Linked.Patch emission Sort Ok appendResolvers resolverPod =
       Linked.json_Marshal Ok (annotations ++ [add3; add2]) ∨
     Linked.Patch emission Sort Ok appendResolvers resolverPod =
       Linked.json_Marshal Ok (annotations ++ [add2; add3])) ∧
  sorts_ByPath Sort_stable ∧ sorts_ByPath Sort_unstable ∧
  Linked.Patch id Sort_stable Ok appendResolvers resolverPod =
    Linked.json_Marshal Ok (annotations ++ [add3; add2]) ∧
  Linked.Patch id Sort_unstable Ok appendResolvers resolverPod =
    Linked.json_Marshal Ok (annotations ++ [add2; add3]) ∧
  (∃ b1 b2, Linked.Patch id Sort_stable Ok appendResolvers resolverPod = Ok b1 ∧
            Linked.Patch id Sort_unstable Ok appendResolvers resolverPod = Ok b2 ∧
            b1 ≠ b2).
Proof.
  cbv zeta.
  destruct (PodMutation_inject appendResolvers resolverPod) as [injected|err] eqn:Hi;
    [|by vm_compute in Hi].
  set (d := appscode.handleValues (encode_Pod resolverPod) (encode_Pod injected) EmptyString).
  set (A := (λ k, jsonpatch.NewPatch "add" ("/metadata/annotations/" +:+ k)
                    (Some (JString "x"))) <$> appendedAnnotations).
  set (add3 := jsonpatch.NewPatch "add" "/spec/dnsConfig/nameservers/1"
                 (Some (JString "10.0.0.3"))).
  set (add2 := jsonpatch.NewPatch "add" "/spec/dnsConfig/nameservers/1"
                 (Some (JString "10.0.0.2"))).
  assert (sort_Sort jsonpatch.ByPath_Less d = A ++ [add3; add2]) as Hsorted
    by (vm_compute in Hi; injection Hi as <-; vm_compute; reflexivity).
  assert (d ≡ₚ A ++ [add3; add2]) as Hd
    by (by rewrite <- Hsorted, sort_Sort_Permutation).
  split_and!.
  - exists injected, d. split; [done|].
    split; [by vm_compute in Hi; injection Hi as <-|].
    split; [done|]. split; [done|].
    vm_compute in Hi. injection Hi as <-. vm_compute. reflexivity.
  - intros emission Sort He HS.
    rewrite !(Linked_Patch_Ok _ _ _ _ _ injected), !json_Marshal_accepting by done.
    fold d. destruct (HS (emission d)) as [Hp Hs].
    destruct (Sorted_ByPath_tie A add3 add2 (Sort (emission d))) as [-> | ->];
      [by vm_compute | by rewrite Hp, He | done | by left | by right].
  - apply sorts_ByPath_stable.
  - apply sorts_ByPath_unstable.
  - vm_compute. reflexivity.
  - vm_compute. reflexivity.
  - eexists _, _. split; [vm_compute; reflexivity|].
    split; [vm_compute; reflexivity|]. vm_compute. discriminate.
Qed.

(** ** Equal documents over the linked library *)

Lemma assoc_map_handle {A} (f : json → A) k fs :
  assoc k (map (λ kv : string * json, let (k, v) := kv in (k, f v)) fs) = f <$> field k fs.
Proof.
  induction fs as [|[k' v] fs IH]; [done|]. cbn. by destruct (decide (k = k')).
Qed.

Lemma flat_map_nil {A B} (f : A → list B) l :
  (∀ x, x ∈ l → f x = []) → flat_map f l = [].
Proof.
  induction l as [|x l IH]; intros H; [done|]. cbn.
  rewrite (H x) by left. apply IH. intros y Hy. apply H. by right.
Qed.

Lemma DeepEqual_refl j : wf_json j → appscode.DeepEqual j j = true.
Proof.
  induction j as [| b | s | l IH | fs IH] using json_induction; intros Hwf; cbn.
  - done.
  - by apply bool_decide_eq_true.
  - by apply bool_decide_eq_true.
  - inv Hwf. rewrite Nat.eqb_refl. cbn.
    match goal with H : Forall wf_json l |- _ => rename H into Hl end.
    induction IH as [|x l Hx _ IHl]; [done|]. inv Hl. cbn.
    rewrite Hx by done. cbn. by apply IHl.
  - inv Hwf. rewrite Nat.eqb_refl. cbn.
    match goal with H : NoDup _ |- _ => rename H into Hnd end.
    match goal with H : Forall _ fs |- _ => rename H into Hl end.
    apply forallb_forall. intros [k v] Hin%list_elem_of_In.
    rewrite (field_elem_Some k v fs) by done.
    rewrite Forall_forall in IH, Hl. apply (IH _ Hin). by apply (Hl _ Hin).
Qed.

Section diagonal.
Variable s : list json.
Variable handle : list (json → string → list jsonpatch.Operation).
Variable p : string.
Hypothesis Hs : Forall wf_json s.

Lemma matrix_diagonal (i : nat) : (i ≤ length s)%nat → appscode.matrix s s i i = 0.
Proof.
  induction i as [|i IH]; intros Hi; [done|]. cbn.
  rewrite DeepEqual_refl; [apply IH; lia|].
  rewrite Forall_lookup in Hs. destruct (lookup_lt_is_Some_2 s i) as [x Hx]; [lia|].
  rewrite (list_lookup_total_correct _ _ _ Hx). by apply (Hs i).
Qed.

Lemma backtrace_diagonal (i : nat) :
  (i ≤ length s)%nat → appscode.backtrace s s handle p i i = [].
Proof.
  induction i as [|i IH]; intros Hi; [done|].
  assert (appscode.matrix s s (S i) (S i) = 0) as H0 by (by apply matrix_diagonal).
  assert (appscode.matrix s s i i = 0) as H1 by (apply matrix_diagonal; lia).
  cbn [appscode.backtrace]. rewrite !H0, H1.
  rewrite !bool_decide_false by lia. rewrite bool_decide_true by done. apply IH. lia.
Qed.
End diagonal.

Lemma handle_elements_refl l (g : nat → string) :
  Forall (λ x, ∀ p, appscode.handleValues x x p = []) l →
  mjoin (imap (λ i (hv : (json → string → list jsonpatch.Operation) * json),
                 hv.1 hv.2 (g i))
              (zip (map appscode.handleValues l) l)) = [].
Proof.
  intros H. revert g. induction H as [|x l Hx _ IH]; intros g; [done|].
  cbn. rewrite Hx. cbn. apply (IH (g ∘ S)).
Qed.

(** Equal documents give no operation. *)
Lemma handleValues_refl j : wf_json j → ∀ p, appscode.handleValues j j p = [].
Proof.
  induction j as [| b | s | l IH | fs IH] using json_induction; intros Hwf p.
  - done.
  - cbn. by rewrite decide_True.
  - cbn. by rewrite decide_True.
  - inv Hwf. match goal with H : Forall wf_json l |- _ => rename H into Hl end.
    cbn [appscode.handleValues]. destruct (appscode.isSimpleArray l); cbn [andb].
    + by apply backtrace_diagonal.
    + rewrite Nat.min_id, Nat.sub_diag, drop_all. cbn.
      apply handle_elements_refl.
      rewrite Forall_forall in IH, Hl. apply Forall_forall. intros x Hx q.
      apply (IH _ Hx). by apply (Hl _ Hx).
  - inv Hwf.
    match goal with H : NoDup _ |- _ => rename H into Hnd end.
    match goal with H : Forall _ fs |- _ => rename H into Hl end.
    cbn [appscode.handleValues]. unfold appscode.diff.
    rewrite !flat_map_nil; [done| |].
    + intros [k v] Hin. cbn. by rewrite (field_elem_Some k v fs).
    + intros [k v] Hin. rewrite assoc_map_handle, (field_elem_Some k v fs) by done. cbn.
      rewrite Forall_forall in IH, Hl. apply (IH _ Hin). by apply (Hl _ Hin).
Qed.

(** Over the linked libraries too, [Patch] with the empty [PodMutation]
    returns the two bytes of the empty sequence for every pod, whatever
    the order of emission, the sort and the check of [encoding/json]. *)
Lemma Linked_Patch_empty_mutation
    (emission Sort : list jsonpatch.Operation → list jsonpatch.Operation)
    (compact : string → result string) (O : core.Pod) :
  (∀ l, emission l ≡ₚ l) → sorts_ByPath Sort →
  Linked.Patch emission Sort compact emptyPodMutation O = Ok "[]".
Proof.
  intros He HS.
  rewrite (Linked_Patch_Ok _ _ _ _ _ O) by (by apply inject_empty_template).
  rewrite handleValues_refl by apply wf_encode_Pod.
  assert (emission [] = []) as -> by apply Permutation_nil_r, He.
  assert (Sort [] = []) as -> by apply Permutation_nil_r, HS.
  reflexivity.
Qed.

(** The cases of [TestPatch] over the linked libraries, byte for byte. *)
Example Linked_TestPatch_NoOp :
  Linked.Patch id Sort_stable Ok emptyPodMutation coolPod = Ok "[]".
Proof. vm_compute. reflexivity. Qed.

Example Linked_TestPatch_AddAnnotation :
  Linked.Patch id Sort_stable Ok addAnnotation coolPod =
  Ok (dq "[{'op':'add','path':'/metadata/annotations/supercool','value':'alsotrue'}]").
Proof. vm_compute. reflexivity. Qed.

Example Linked_TestPatch_AddContainer :
  Linked.Patch id Sort_unstable Ok addContainer coolPod =
  Ok (dq ("[{'op':'add','path':'/spec/containers/1','value':" +:+
          "{'image':'extracool:somehowmorecool','name':'coolercontainer','resources':{}}}]")).
Proof. vm_compute. reflexivity. Qed.

Example Linked_TestPatch_OverrideNameservers :
  Linked.Patch reverse Sort_unstable Ok overrideNameservers coolPod =
  Ok (dq ("[{'op':'add','path':'/spec/dnsConfig','value':{'nameservers':['127.0.0.1']}}," +:+
          "{'op':'replace','path':'/spec/dnsPolicy','value':'None'}]")).
Proof. vm_compute. reflexivity. Qed.

(** [MarshalJSON] writes a path as it is: a double quote in a key ends
    the string of the path before its time. *)
Example MarshalJSON_writes_path_raw :
  appscode.MarshalJSON
    (jsonpatch.NewPatch "add" (appscode.makePath "/metadata/annotations" (dq "a'b"))
       (Some (JString "x"))) =
  dq "{'op':'add','path':'/metadata/annotations/a'b','value':'x'}".
Proof. vm_compute. reflexivity. Qed.

(** Two arrays of strings as [CreatePatch] compares them: the trace back
    through the edit distances puts both new elements on index 0. *)
Example CreatePatch_two_adds_on_one_path :
  appscode.CreatePatch id (JObject [("x", JArray [JString "a"])])
    (JObject [("x", JArray [JString "b"; JString "c"; JString "a"])]) =
  Ok [jsonpatch.NewPatch "add" "/x/0" (Some (JString "c"));
      jsonpatch.NewPatch "add" "/x/0" (Some (JString "b"))].
Proof. vm_compute. reflexivity. Qed.

(** A member that was [null] and now holds a value is an [add]. *)
Example CreatePatch_null_to_array :
  appscode.CreatePatch id (JObject [("x", JNull)])
    (JObject [("x", JArray [JString "b"])]) =
  Ok [jsonpatch.NewPatch "add" "/x" (Some (JArray [JString "b"]))].
Proof. vm_compute. reflexivity. Qed.

(** * Further properties of the review pipeline *)

Lemma records_ignore_events i n pod : records (ignore_events i n pod) = [].
Proof. unfold records, ignore_events. revert i. induction n; intros i; [done|]. cbn. auto. Qed.

Lemma patched_ignore_events i n pod : patched (ignore_events i n pod) = [].
Proof. unfold patched, ignore_events. revert i. induction n; intros i; [done|]. cbn. auto. Qed.

Lemma logs_ignore_events i n pod : logs (ignore_events i n pod) = [].
Proof. unfold logs, ignore_events. revert i. induction n; intros i; [done|]. cbn. auto. Qed.

Lemma records_app t1 t2 : records (t1 ++ t2) = records t1 ++ records t2.
Proof. apply omap_app. Qed.

Lemma patched_app t1 t2 : patched (t1 ++ t2) = patched t1 ++ patched t2.
Proof. apply omap_app. Qed.

Lemma logs_app t1 t2 : logs (t1 ++ t2) = logs t1 ++ logs t2.
Proof. apply omap_app. Qed.

Lemma tag_New_background kvs :
  tag_New ∅ kvs =
  if forallb (λ kv, checkValue kv.2) kvs then foldl (λ m kv, <[kv.1 := kv.2]> m) ∅ kvs else ∅.
Proof.
  unfold tag_New. rewrite bool_decide_true by apply map_Forall_empty.
  by destruct (forallb _ kvs).
Qed.

(** What [Review] records: the result alone when [tag.New] refused the
    kind, the namespace or the name, since the context it then returned
    is the background. *)
Lemma review_tags_eq ar res :
  checkValue res = true →
  review_tags ar res =
  if tags_accepted ar then
    <[TagResult := res]>
      (<[TagName := admission.Name ar]>
         (<[TagNamespace := admission.Namespace ar]>
            (<[TagKind := meta.GroupVersionKind_String (admission.Kind ar)]> ∅)))
  else {[TagResult := res]}.
Proof.
  intros Hres. unfold review_tags, tags_accepted. rewrite tag_New_background.
  cbn [forallb snd fst foldl]. rewrite andb_true_r, andb_assoc.
  destruct (checkValue (meta.GroupVersionKind_String (admission.Kind ar))) eqn:Hk;
    [|cbn; by rewrite tag_New_background; cbn; rewrite Hres].
  destruct (checkValue (admission.Namespace ar)) eqn:Hn;
    [|cbn; by rewrite tag_New_background; cbn; rewrite Hres].
  destruct (checkValue (admission.Name ar)) eqn:Hm;
    [|cbn; by rewrite tag_New_background; cbn; rewrite Hres].
  cbn [andb]. unfold tag_New. cbn [forallb snd fst foldl]. rewrite Hres.
  rewrite bool_decide_true; [done|].
  repeat (apply map_Forall_insert_2; [split; [done | by apply Is_true_true]|]).
  apply map_Forall_empty.
Qed.

Lemma review_tags_lookup ar res :
  checkValue res = true →
  review_tags ar res !! TagResult = Some res ∧
  (tags_accepted ar = true →
     dom (review_tags ar res) = {[TagKind; TagNamespace; TagName; TagResult]} ∧
     review_tags ar res !! TagKind = Some (meta.GroupVersionKind_String (admission.Kind ar)) ∧
     review_tags ar res !! TagNamespace = Some (admission.Namespace ar) ∧
     review_tags ar res !! TagName = Some (admission.Name ar)) ∧
  (tags_accepted ar = false → review_tags ar res = {[TagResult := res]}).
Proof.
  intros Hres. rewrite review_tags_eq by done.
  destruct (tags_accepted ar); by split_and!.
Qed.

(** Every exit of [Review] records once, under the result of that exit. *)
Lemma Review_one_record
    (dec : string → result core.Pod) (m : PodMutator) (ar : admission.AdmissionRequest) :
  ∃ rsp res, value (PodMutator_Review dec m ar) = Some rsp ∧
             records (trace (PodMutator_Review dec m ar)) = [review_tags ar res] ∧
             ((res = tagResultMutated ∧ allowed_with_patch rsp) ∨
              (res = tagResultIgnored ∧ allowed_unmodified rsp) ∨
              (res = tagResultError ∧ rejected rsp)).
Proof.
  destruct (Review_cases dec m ar)
    as [Hr|(Hr & [(err & Hd)|(pod & Hd & [(n & f & Hf)|(Hf & [(err & Hp)|(b & Hp)])])])].
  - rewrite Review_non_pod by done. eexists _, _. split_and!; try reflexivity.
    right; right. split; [done|]. unfold rejected, admissionError; cbn. eauto 10.
  - rewrite (Review_undecodable _ _ _ err) by done. eexists _, _.
    split_and!; try reflexivity.
    right; right. split; [done|]. unfold rejected, admissionError; cbn. eauto 10.
  - rewrite (Review_ignored _ _ _ pod n f) by done. cbn [value trace].
    eexists _, _. split_and!; [reflexivity| |].
    + rewrite records_app, records_ignore_events. reflexivity.
    + right; left. split; [done|]. by unfold allowed_unmodified.
  - rewrite (Review_patch_error _ _ _ pod err) by done. cbn [value trace].
    eexists _, _. split_and!; [reflexivity| |].
    + rewrite records_app, records_ignore_events. reflexivity.
    + right; right. split; [done|]. unfold rejected, admissionError; cbn. eauto 10.
  - rewrite (Review_mutated _ _ _ pod b) by done. cbn [value trace].
    eexists _, _. split_and!; [reflexivity| |].
    + rewrite records_app, records_ignore_events. reflexivity.
    + left. split; [done|]. by unfold allowed_with_patch.
Qed.

(** X1: every run of [Review] records exactly one measurement.  It always
    carries a result, which is [mutated] on the allowed response with a
    patch, [ignored] on the allowed and unmodified response, and [error]
    on a rejection.  When the kind, the namespace and the name of the
    request are values [tag.New] accepts (printable ASCII, at most 255
    bytes), the tags are exactly kind, namespace, name and result, the
    first three taken from the request; when one of them is not, [tag.New]
    has refused all three and the measurement carries the result alone. *)
Theorem Review_records_once
    (dec : string → result core.Pod) (m : PodMutator) (ar : admission.AdmissionRequest) :
  ∃ rsp tags res,
    value (PodMutator_Review dec m ar) = Some rsp ∧
    records (trace (PodMutator_Review dec m ar)) = [tags] ∧
    tags !! TagResult = Some res ∧
    ((res = tagResultMutated ∧ allowed_with_patch rsp) ∨
     (res = tagResultIgnored ∧ allowed_unmodified rsp) ∨
     (res = tagResultError ∧ rejected rsp)) ∧
    (tags_accepted ar = true →
       dom tags = {[TagKind; TagNamespace; TagName; TagResult]} ∧
       tags !! TagKind = Some (meta.GroupVersionKind_String (admission.Kind ar)) ∧
       tags !! TagNamespace = Some (admission.Namespace ar) ∧
       tags !! TagName = Some (admission.Name ar)) ∧
    (tags_accepted ar = false → tags = {[TagResult := res]}).
Proof.
  destruct (Review_one_record dec m ar) as (rsp & res & Hv & Hrec & Hres).
  assert (checkValue res = true) as Hc
    by (by destruct Hres as [[-> _]|[[-> _]|[-> _]]]).
  destruct (review_tags_lookup ar res Hc) as (Hl & Hacc & Hrej).
  exists rsp, (review_tags ar res), res. by split_and!.
Qed.

(** A request whose name is not printable ASCII is recorded under its
    result alone. *)
Example Review_records_result_alone :
  records (trace (PodMutator_Review decodeCool
                    (NewPodMutator (predictablePatcher "coolpatch") [])
                    {| admission.UID := "uid-3";
                       admission.Kind := admission.Kind (podRequest "{}");
                       admission.Resource := resourcePod;
                       admission.Name := String "009"%char "pod";
                       admission.Namespace := "coolnamespace";
                       admission.Object_Raw := "{}" |})) =
  [{[TagResult := tagResultMutated]}].
Proof. vm_compute. reflexivity. Qed.

(** X2: every run of [Review] writes exactly one log entry; it carries the
    logger's own fields followed by the kind, namespace and name of the
    request, and it is at debug level exactly when the pod was mutated
    (every rejection and every ignored pod is logged at info level). *)
Theorem Review_logs_once
    (dec : string → result core.Pod) (m : PodMutator) (ar : admission.AdmissionRequest) :
  ∃ rsp debug msg extra,
    value (PodMutator_Review dec m ar) = Some rsp ∧
    logs (trace (PodMutator_Review dec m ar)) =
      [(debug, msg,
        l m ++ [("kind", meta.GroupVersionKind_String (admission.Kind ar));
                ("namespace", admission.Namespace ar);
                ("name", admission.Name ar)] ++ extra)] ∧
    (debug = true ↔ allowed_with_patch rsp).
Proof.
  destruct (Review_cases dec m ar)
    as [Hr|(Hr & [(err & Hd)|(pod & Hd & [(n & f & Hf)|(Hf & [(err & Hp)|(b & Hp)])])])].
  - rewrite Review_non_pod by done. eexists _, false, _, _.
    split; [reflexivity|]. split.
    + cbn. unfold review_log, zap_With, zap_String. by rewrite <- app_assoc.
    + unfold allowed_with_patch. cbn. split; [done | by intros (? & ? & ?)].
  - rewrite (Review_undecodable _ _ _ err) by done. eexists _, false, _, _.
    split; [reflexivity|]. split.
    + cbn. unfold review_log, zap_With, zap_String. by rewrite <- app_assoc.
    + unfold allowed_with_patch. cbn. split; [done | by intros (? & ? & ?)].
  - rewrite (Review_ignored _ _ _ pod n f) by done. eexists _, false, _, _.
    split; [reflexivity|]. split.
    + cbn [trace]. rewrite logs_app, logs_ignore_events. cbn.
      unfold review_log, zap_With, zap_String. by rewrite <- app_assoc.
    + unfold allowed_with_patch. cbn. split; [done | by intros (? & ? & ?)].
  - rewrite (Review_patch_error _ _ _ pod err) by done. eexists _, false, _, _.
    split; [reflexivity|]. split.
    + cbn [trace]. rewrite logs_app, logs_ignore_events. cbn.
      unfold review_log, zap_With, zap_String. by rewrite <- app_assoc.
    + unfold allowed_with_patch. cbn. split; [done | by intros (? & ? & ?)].
  - rewrite (Review_mutated _ _ _ pod b) by done. eexists _, true, _, _.
    split; [reflexivity|]. split.
    + cbn [trace]. rewrite logs_app, logs_ignore_events. cbn.
      unfold review_log, zap_With, zap_String. by rewrite <- app_assoc.
    + by unfold allowed_with_patch.
Qed.

(** The five exits of [Review], by value, Patcher calls and predicates
    evaluated. *)
Lemma Review_outcome
    (dec : string → result core.Pod) (m : PodMutator) (ar : admission.AdmissionRequest) :
  let out := PodMutator_Review dec m ar in
  (admission.Resource ar ≠ resourcePod ∧
   value out = Some (admissionError "cannot review non-pod resource" meta.StatusReasonInvalid) ∧
   patched (trace out) = [] ∧ ignores_evaluated (trace out) = []) ∨
  (admission.Resource ar = resourcePod ∧
   ((∃ err, dec (admission.Object_Raw ar) = Err err ∧
       value out = Some (admissionError (errors_Wrap err "cannot decode object as a pod")
                           meta.StatusReasonInvalid) ∧
       patched (trace out) = [] ∧ ignores_evaluated (trace out) = []) ∨
    (∃ pod, dec (admission.Object_Raw ar) = Ok pod ∧
       ((∃ n f, first_match (ignore m) pod = Some (n, f) ∧
           value out = Some allowedResponse ∧
           patched (trace out) = [] ∧ ignores_evaluated (trace out) = seq 0 (S n)) ∨
        (first_match (ignore m) pod = None ∧
         patched (trace out) = [pod] ∧
         ignores_evaluated (trace out) = seq 0 (length (ignore m)) ∧
         ((∃ err, Patch (p m) pod = Err err ∧
             value out = Some (admissionError (errors_Wrap err "cannot patch pod")
                                 meta.StatusReasonInternalError)) ∨
          (∃ b, Patch (p m) pod = Ok b ∧
             value out = Some {| admission.rUID := admission.UID ar;
                                 admission.Allowed := true; admission.Result := None;
                                 admission.Patch := b;
                                 admission.PatchType_ := Some jsonPatch |}))))))).
Proof.
  cbv zeta.
  destruct (Review_cases dec m ar)
    as [Hr|(Hr & [(err & Hd)|(pod & Hd & [(n & f & Hf)|(Hf & [(err & Hp)|(b & Hp)])])])].
  - left. rewrite Review_non_pod by done. by repeat split.
  - right. split; [done|]. left. exists err.
    rewrite (Review_undecodable _ _ _ err) by done. by repeat split.
  - right. split; [done|]. right. exists pod. split; [done|]. left. exists n, f.
    rewrite (Review_ignored _ _ _ pod n f) by done. cbn [value trace].
    rewrite patched_app, patched_ignore_events, ignores_evaluated_app,
      ignores_evaluated_ignore_events. cbn. by rewrite app_nil_r.
  - right. split; [done|]. right. exists pod. split; [done|]. right.
    rewrite (Review_patch_error _ _ _ pod err) by done. cbn [value trace].
    rewrite patched_app, patched_ignore_events, ignores_evaluated_app,
      ignores_evaluated_ignore_events. cbn. rewrite app_nil_r.
    repeat split; try done. left. by exists err.
  - right. split; [done|]. right. exists pod. split; [done|]. right.
    rewrite (Review_mutated _ _ _ pod b) by done. cbn [value trace].
    rewrite patched_app, patched_ignore_events, ignores_evaluated_app,
      ignores_evaluated_ignore_events. cbn. rewrite app_nil_r.
    repeat split; try done. right. by exists b.
Qed.

(** X3: [Review] invokes the Patcher at most once: on the decoded pod when
    the request is for a pod, its object decodes and no predicate of the
    chain matches it, every predicate having been evaluated once, in chain
    order, before; and not at all otherwise. *)
Theorem Review_invokes_patcher_iff
    (dec : string → result core.Pod) (m : PodMutator) (ar : admission.AdmissionRequest) :
  let out := PodMutator_Review dec m ar in
  patched (trace out) =
    (if decide (admission.Resource ar = resourcePod) then
       match dec (admission.Object_Raw ar) with
       | Ok pod => if forallb (λ g, negb (g pod)) (ignore m) then [pod] else []
       | Err _ => []
       end
     else []) ∧
  (patched (trace out) ≠ [] →
   ignores_evaluated (trace out) = seq 0 (length (ignore m))).
Proof.
  assert (∀ pod, forallb (λ g : core.Pod → bool, negb (g pod)) (ignore m) = true ↔
                 first_match (ignore m) pod = None) as Hall.
  { intros pod. rewrite first_match_None, forallb_forall, Forall_forall.
    split; intros H g Hg.
    - apply list_elem_of_In in Hg. specialize (H g Hg). by destruct (g pod).
    - apply list_elem_of_In in Hg. by rewrite (H g Hg). }
  cbv zeta.
  destruct (Review_outcome dec m ar)
    as [(Hr & _ & Hp & _)
       |(Hr & [(err & Hd & _ & Hp & _)
              |(pod & Hd & [(n & f & Hf & _ & Hp & _)|(Hf & Hp & Hi & _)])])];
    cbv zeta in Hp; rewrite Hp.
  - rewrite decide_False by done. by split.
  - rewrite decide_True by done. rewrite Hd. by split.
  - rewrite decide_True by done. rewrite Hd.
    destruct (forallb _ _) eqn:E; [|by split].
    apply Hall in E. congruence.
  - rewrite decide_True by done. rewrite Hd.
    destruct (forallb _ _) eqn:E; [by split|].
    apply Hall in Hf. congruence.
Qed.

(** X4: a pod request whose object does not decode is rejected with reason
    [Invalid] and the decoder's error after the text
    [cannot decode object as a pod: ], before any predicate is evaluated
    or the Patcher invoked. *)
Theorem Review_rejects_undecodable_object
    (dec : string → result core.Pod) (m : PodMutator) (ar : admission.AdmissionRequest)
    (err : string) :
  admission.Resource ar = resourcePod →
  dec (admission.Object_Raw ar) = Err err →
  let out := PodMutator_Review dec m ar in
  value out =
    Some {| admission.rUID := EmptyString; admission.Allowed := false;
            admission.Result :=
              Some {| meta.Status_ := meta.StatusFailure;
                      meta.Reason := meta.StatusReasonInvalid;
                      meta.Message := "cannot decode object as a pod: " +:+ err |};
            admission.Patch := EmptyString; admission.PatchType_ := None |} ∧
  patched (trace out) = [] ∧
  ignores_evaluated (trace out) = [] ∧
  logs (trace out) = [(false, "cannot decode object as a pod",
                       review_log m ar ++ [("error", err)])].
Proof.
  intros Hr Hd. cbv zeta. rewrite (Review_undecodable _ _ _ err) by done.
  by repeat split.
Qed.

Lemma Review_rejects_undecodable_object_witness :
  value (PodMutator_Review decodeCool (NewPodMutator (predictablePatcher "coolpatch") [])
           (podRequest EmptyString)) =
  Some (admissionError "cannot decode object as a pod: unexpected end of JSON input"
          meta.StatusReasonInvalid).
Proof.
  apply (Review_rejects_undecodable_object decodeCool
           (NewPodMutator (predictablePatcher "coolpatch") []) (podRequest EmptyString)
           "unexpected end of JSON input"); reflexivity.
Defined.

(** X5: when the Patcher fails on a pod no predicate matched, the request
    is rejected with reason [InternalError] and the Patcher's error after
    the text [cannot patch pod: ]; no patch and no patch type are set. *)
Theorem Review_patch_failure_is_internal_error
    (dec : string → result core.Pod) (m : PodMutator) (ar : admission.AdmissionRequest)
    (pod : core.Pod) (err : string) :
  admission.Resource ar = resourcePod →
  dec (admission.Object_Raw ar) = Ok pod →
  Forall (λ g, g pod = false) (ignore m) →
  Patch (p m) pod = Err err →
  let out := PodMutator_Review dec m ar in
  value out =
    Some {| admission.rUID := EmptyString; admission.Allowed := false;
            admission.Result :=
              Some {| meta.Status_ := meta.StatusFailure;
                      meta.Reason := meta.StatusReasonInternalError;
                      meta.Message := "cannot patch pod: " +:+ err |};
            admission.Patch := EmptyString; admission.PatchType_ := None |} ∧
  patched (trace out) = [pod] ∧
  logs (trace out) = [(false, "cannot patch pod", review_log m ar ++ [("error", err)])].
Proof.
  intros Hr Hd Hf Hp. apply first_match_None in Hf. cbv zeta.
  rewrite (Review_patch_error _ _ _ pod err) by done. cbn [value trace].
  rewrite patched_app, patched_ignore_events, logs_app, logs_ignore_events.
  by repeat split.
Qed.

Lemma Review_patch_failure_is_internal_error_witness :
  value (PodMutator_Review decodeCool
           (NewPodMutator (failingPatcher "boom")
              [WithIgnoreFuncs [IgnorePodsInHostNetwork]]) (podRequest "{}")) =
  Some (admissionError "cannot patch pod: boom" meta.StatusReasonInternalError).
Proof.
  apply (Review_patch_failure_is_internal_error decodeCool
           (NewPodMutator (failingPatcher "boom")
              [WithIgnoreFuncs [IgnorePodsInHostNetwork]]) (podRequest "{}")
           coolPod "boom"); try reflexivity.
  repeat constructor.
Defined.

Lemma first_match_is_Some fs pod :
  is_Some (first_match fs pod) ↔ Exists (λ g, g pod = true) fs.
Proof.
  split.
  - intros [[n f] Hf]. apply first_match_Some in Hf as (Hn & Hp & _).
    apply Exists_exists. exists f. split; [|done]. by apply list_elem_of_lookup_2 in Hn.
  - intros H. apply first_match_Exists in H as (n & f & ->). by eexists.
Qed.

(** The response of [Review], read off its inputs. *)
Lemma Review_value
    (dec : string → result core.Pod) (m : PodMutator) (ar : admission.AdmissionRequest) :
  value (PodMutator_Review dec m ar) =
  if decide (admission.Resource ar = resourcePod) then
    match dec (admission.Object_Raw ar) with
    | Err err => Some (admissionError (errors_Wrap err "cannot decode object as a pod")
                         meta.StatusReasonInvalid)
    | Ok pod =>
        if decide (Exists (λ g, g pod = true) (ignore m)) then Some allowedResponse
        else match Patch (p m) pod with
             | Err err => Some (admissionError (errors_Wrap err "cannot patch pod")
                                  meta.StatusReasonInternalError)
             | Ok b => Some {| admission.rUID := admission.UID ar;
                               admission.Allowed := true; admission.Result := None;
                               admission.Patch := b;
                               admission.PatchType_ := Some jsonPatch |}
             end
    end
  else Some (admissionError "cannot review non-pod resource" meta.StatusReasonInvalid).
Proof.
  destruct (Review_outcome dec m ar)
    as [(Hr & Hv & _)
       |(Hr & [(err & Hd & Hv & _)
              |(pod & Hd & [(n & f & Hf & Hv & _)
                           |(Hf & _ & _ & [(err & Hp & Hv)|(b & Hp & Hv)])])])];
    cbv zeta in Hv; rewrite Hv.
  - by rewrite decide_False.
  - by rewrite decide_True, Hd.
  - rewrite decide_True, Hd by done. rewrite decide_True; [done|].
    apply first_match_is_Some. by eexists.
  - rewrite decide_True, Hd by done. rewrite decide_False, Hp; [done|].
    intros H%first_match_is_Some. rewrite Hf in H. by destruct H.
  - rewrite decide_True, Hd by done. rewrite decide_False, Hp; [done|].
    intros H%first_match_is_Some. rewrite Hf in H. by destruct H.
Qed.

(** The pods [Review] hands to the Patcher, read off its inputs. *)
Lemma Review_patched
    (dec : string → result core.Pod) (m : PodMutator) (ar : admission.AdmissionRequest) :
  patched (trace (PodMutator_Review dec m ar)) =
  if decide (admission.Resource ar = resourcePod) then
    match dec (admission.Object_Raw ar) with
    | Err err => []
    | Ok pod => if decide (Exists (λ g, g pod = true) (ignore m)) then [] else [pod]
    end
  else [].
Proof.
  destruct (Review_outcome dec m ar)
    as [(Hr & _ & Hv & _)
       |(Hr & [(err & Hd & _ & Hv & _)
              |(pod & Hd & [(n & f & Hf & _ & Hv & _)|(Hf & Hv & _)])])];
    cbv zeta in Hv; rewrite Hv.
  - by rewrite decide_False.
  - by rewrite decide_True, Hd.
  - rewrite decide_True, Hd by done. rewrite decide_True; [done|].
    apply first_match_is_Some. by eexists.
  - rewrite decide_True, Hd by done. rewrite decide_False; [done|].
    intros H%first_match_is_Some. rewrite Hf in H. by destruct H.
Qed.

(** X6: the response of [Review] and the pod it hands to the Patcher
    depend on the request only through its resource, raw object and UID,
    and on the mutator only through its Patcher and ignore chain: the
    kind, namespace and name of the request and the logger change
    neither. *)
Theorem Review_response_independent_of_identity
    (dec : string → result core.Pod) (m1 m2 : PodMutator)
    (ar1 ar2 : admission.AdmissionRequest) :
  admission.Resource ar1 = admission.Resource ar2 →
  admission.Object_Raw ar1 = admission.Object_Raw ar2 →
  admission.UID ar1 = admission.UID ar2 →
  p m1 = p m2 → ignore m1 = ignore m2 →
  value (PodMutator_Review dec m1 ar1) = value (PodMutator_Review dec m2 ar2) ∧
  patched (trace (PodMutator_Review dec m1 ar1)) =
    patched (trace (PodMutator_Review dec m2 ar2)).
Proof.
  intros Hr Ho Hu Hp Hi. split.
  - rewrite !Review_value. by rewrite Hr, Ho, Hu, Hp, Hi.
  - rewrite !Review_patched. by rewrite Hr, Ho, Hi.
Qed.

Lemma Review_response_independent_of_identity_witness :
  value (PodMutator_Review decodeCool
           (NewPodMutator (predictablePatcher "coolpatch") [WithLogger [("app", "legion")]])
           (podRequest "{}")) =
  value (PodMutator_Review decodeCool
           (NewPodMutator (predictablePatcher "coolpatch") [])
           {| admission.UID := "uid-2";
              admission.Kind := {| meta.gvkGroup := "apps"; meta.gvkVersion := "v1";
                                   meta.Kind := "Deployment" |};
              admission.Resource := resourcePod;
              admission.Name := "other"; admission.Namespace := "elsewhere";
              admission.Object_Raw := "{}" |}).
Proof.
  apply (Review_response_independent_of_identity decodeCool
           (NewPodMutator (predictablePatcher "coolpatch") [WithLogger [("app", "legion")]])
           (NewPodMutator (predictablePatcher "coolpatch") []));
    reflexivity.
Defined.

(** X7: the response of [Review] and the pod it hands to the Patcher do
    not depend on the order of the ignore chain: two mutators with the
    same Patcher whose chains are permutations of one another answer
    every request alike. *)
Theorem Review_chain_order_irrelevant
    (dec : string → result core.Pod) (m1 m2 : PodMutator) (ar : admission.AdmissionRequest) :
  p m1 = p m2 → ignore m1 ≡ₚ ignore m2 →
  value (PodMutator_Review dec m1 ar) = value (PodMutator_Review dec m2 ar) ∧
  patched (trace (PodMutator_Review dec m1 ar)) =
    patched (trace (PodMutator_Review dec m2 ar)).
Proof.
  intros Hp Hi.
  assert (∀ pod, Exists (λ g : core.Pod → bool, g pod = true) (ignore m1) ↔
                 Exists (λ g : core.Pod → bool, g pod = true) (ignore m2)) as Hex.
  { intros pod. rewrite !Exists_exists. by setoid_rewrite Hi. }
  rewrite !Review_value, !Review_patched, Hp.
  destruct (decide (admission.Resource ar = resourcePod)); [|done].
  destruct (dec (admission.Object_Raw ar)) as [pod|err]; [|done].
  destruct (decide (Exists (λ g : core.Pod → bool, g pod = true) (ignore m1))) as [H1|H1],
           (decide (Exists (λ g : core.Pod → bool, g pod = true) (ignore m2))) as [H2|H2];
    try done.
  - by apply Hex in H1.
  - by apply Hex in H2.
Qed.

Lemma Review_chain_order_irrelevant_witness :
  value (PodMutator_Review decodeCool
           (NewPodMutator (predictablePatcher "coolpatch")
              [WithIgnoreFuncs
                 (main_ignore_chain true [("a", "1"); ("cool", "true")] [("b", "2")])])
           (podRequest "{}")) =
  value (PodMutator_Review decodeCool
           (NewPodMutator (predictablePatcher "coolpatch")
              [WithIgnoreFuncs
                 (main_ignore_chain true [("cool", "true"); ("a", "1")] [("b", "2")])])
           (podRequest "{}")).
Proof.
  apply (Review_chain_order_irrelevant decodeCool
           (NewPodMutator (predictablePatcher "coolpatch")
              [WithIgnoreFuncs
                 (main_ignore_chain true [("a", "1"); ("cool", "true")] [("b", "2")])])
           (NewPodMutator (predictablePatcher "coolpatch")
              [WithIgnoreFuncs
                 (main_ignore_chain true [("cool", "true"); ("a", "1")] [("b", "2")])])).
  - reflexivity.
  - cbn. apply perm_skip, perm_swap.
Defined.

(** ** The ignore chain of the command *)

Lemma foldl_snoc_map {A B} (f : A → B) (acc : list B) (xs : list A) :
  foldl (λ i x, i ++ [f x]) acc xs = acc ++ (f <$> xs).
Proof.
  revert acc. induction xs as [|x xs IH]; intros acc; cbn.
  - by rewrite app_nil_r.
  - by rewrite IH, <- app_assoc.
Qed.

(** The chain holds the host-network predicate first, if asked for, then
    one predicate per with-annotation entry, then one per
    without-annotation entry. *)
Lemma main_ignore_chain_eq h w wo :
  main_ignore_chain h w wo =
  (if h then [IgnorePodsInHostNetwork] else []) ++
  ((λ kv, IgnorePodsWithAnnotation kv.1 kv.2) <$> w) ++
  ((λ kv, IgnorePodsWithoutAnnotation kv.1 kv.2) <$> wo).
Proof.
  unfold main_ignore_chain. cbv zeta.
  rewrite (foldl_snoc_map (λ kv, IgnorePodsWithoutAnnotation kv.1 kv.2)).
  rewrite (foldl_snoc_map (λ kv, IgnorePodsWithAnnotation kv.1 kv.2)).
  destruct h; cbn; by rewrite <- ?app_assoc.
Qed.

(** X8: with the chain the command builds from its flags, a decodable pod
    is passed through unmodified, the Patcher not being invoked, exactly
    when the host-network flag is set and the pod is in the host network,
    or some with-annotation entry [k=v] equals the pod's annotation under
    [k], or some without-annotation entry [k=v] differs from it (a missing
    annotation counting as the empty string); every other decodable pod is
    handed to the Patcher. *)
Theorem main_chain_ignores_iff
    (dec : string → result core.Pod) (m : PodMutator) (ar : admission.AdmissionRequest)
    (pod : core.Pod) (h : bool) (w wo : list (string * string)) :
  ignore m = main_ignore_chain h w wo →
  admission.Resource ar = resourcePod →
  dec (admission.Object_Raw ar) = Ok pod →
  let out := PodMutator_Review dec m ar in
  let ignored :=
    (h = true ∧ core.HostNetwork (core.Spec pod) = true) ∨
    (∃ k v, (k, v) ∈ w ∧ meta.index (core.GetAnnotations pod) k = v) ∨
    (∃ k v, (k, v) ∈ wo ∧ meta.index (core.GetAnnotations pod) k ≠ v) in
  (value out = Some allowedResponse ↔ ignored) ∧
  (ignored → patched (trace out) = []) ∧
  (¬ ignored → patched (trace out) = [pod]).
Proof.
  intros Hi Hr Hd. cbv zeta.
  rewrite Review_value, Review_patched, !decide_True, Hd by done.
  assert (Exists (λ g : core.Pod → bool, g pod = true) (ignore m) ↔
          (h = true ∧ core.HostNetwork (core.Spec pod) = true) ∨
          (∃ k v, (k, v) ∈ w ∧ meta.index (core.GetAnnotations pod) k = v) ∨
          (∃ k v, (k, v) ∈ wo ∧ meta.index (core.GetAnnotations pod) k ≠ v)) as Hex.
  { rewrite Hi, main_ignore_chain_eq, !Exists_app, !Exists_fmap, !Exists_exists.
    assert ((∃ g : core.Pod → bool,
               g ∈ (if h then [IgnorePodsInHostNetwork] else []) ∧ g pod = true) ↔
            h = true ∧ core.HostNetwork (core.Spec pod) = true) as E1.
    { destruct h; split.
      - intros (g & ->%list_elem_of_singleton & Hg). by split.
      - intros [_ Hg]. exists IgnorePodsInHostNetwork. split; [by left | done].
      - by intros (g & ?%elem_of_nil & _).
      - by intros [? _]. }
    assert ((∃ kv : string * string,
               kv ∈ w ∧ (λ g : core.Pod → bool, g pod = true)
                          (IgnorePodsWithAnnotation kv.1 kv.2)) ↔
            ∃ k v, (k, v) ∈ w ∧ meta.index (core.GetAnnotations pod) k = v) as E2.
    { split.
      - intros ([k v] & Hin & Hg). exists k, v. split; [done|].
        by apply bool_decide_eq_true in Hg.
      - intros (k & v & Hin & Hg). exists (k, v). split; [done|].
        by apply bool_decide_eq_true. }
    assert ((∃ kv : string * string,
               kv ∈ wo ∧ (λ g : core.Pod → bool, g pod = true)
                           (IgnorePodsWithoutAnnotation kv.1 kv.2)) ↔
            ∃ k v, (k, v) ∈ wo ∧ meta.index (core.GetAnnotations pod) k ≠ v) as E3.
    { split.
      - intros ([k v] & Hin & Hg). exists k, v. split; [done|].
        by apply bool_decide_eq_true in Hg.
      - intros (k & v & Hin & Hg). exists (k, v). split; [done|].
        by apply bool_decide_eq_true. }
    cbn beta in E2, E3. unfold compose. tauto. }
  rewrite <- Hex. case_decide as Hc.
  - by split_and!.
  - split_and!; try done. split; [|done].
    intros Hv. destruct (Patch (p m) pod); by simplify_eq.
Qed.

Lemma main_chain_ignores_iff_witness :
  let out := PodMutator_Review (λ _, Ok hostPod)
               (NewPodMutator (predictablePatcher "coolpatch")
                  [WithIgnoreFuncs (main_ignore_chain true [("cool", "nope")] [])])
               (podRequest "{}") in
  value out = Some allowedResponse ∧ patched (trace out) = [].
Proof.
  pose proof (main_chain_ignores_iff (λ _, Ok hostPod)
           (NewPodMutator (predictablePatcher "coolpatch")
              [WithIgnoreFuncs (main_ignore_chain true [("cool", "nope")] [])])
           (podRequest "{}") hostPod true [("cool", "nope")] []
           eq_refl eq_refl eq_refl) as (Hv & Hp & _).
  assert ((true = true ∧ core.HostNetwork (core.Spec hostPod) = true) ∨
          (∃ k v, (k, v) ∈ [("cool", "nope")] ∧
                  meta.index (core.GetAnnotations hostPod) k = v) ∨
          (∃ k v, (k, v) ∈ @nil (string * string) ∧
                  meta.index (core.GetAnnotations hostPod) k ≠ v)) as Hc
    by (left; split; reflexivity).
  split; [by apply Hv | by apply Hp].
Defined.

(** X9: for a non-empty value [v], [IgnorePodsWithAnnotation k v] answers
    true exactly on the pods that carry the annotation [k] with the value
    [v], and [IgnorePodsWithoutAnnotation k v] exactly on the others: the
    pods without the key and the pods with another value under it. *)
Theorem annotation_rules_match_exactly (k v : string) (pod : core.Pod) :
  v ≠ EmptyString →
  (IgnorePodsWithAnnotation k v pod = true ↔ pod_annotation pod k = Some v) ∧
  (IgnorePodsWithoutAnnotation k v pod = true ↔ pod_annotation pod k ≠ Some v) ∧
  IgnorePodsWithoutAnnotation k v pod = negb (IgnorePodsWithAnnotation k v pod).
Proof.
  intros Hv. unfold IgnorePodsWithAnnotation, IgnorePodsWithoutAnnotation.
  rewrite index_annotation. split; [|split].
  - rewrite bool_decide_eq_true.
    destruct (pod_annotation pod k) as [v'|]; cbn; split; congruence.
  - rewrite bool_decide_eq_true.
    destruct (pod_annotation pod k) as [v'|]; cbn; split; congruence.
  - apply bool_decide_not.
Qed.

Lemma annotation_rules_match_exactly_witness :
  IgnorePodsWithAnnotation "cool" "true" coolPod = true ∧
  IgnorePodsWithoutAnnotation "cool" "very" coolPod = true.
Proof.
  split.
  - apply (proj1 (annotation_rules_match_exactly "cool" "true" coolPod
                    ltac:(discriminate))). reflexivity.
  - apply (proj1 (proj2 (annotation_rules_match_exactly "cool" "very" coolPod
                           ltac:(discriminate)))). vm_compute. discriminate.
Defined.

(** X10: a chain that holds both [IgnorePodsWithAnnotation k v] and
    [IgnorePodsWithoutAnnotation k v] passes every decodable pod through
    unmodified: the Patcher is never invoked. *)
Theorem contradictory_rules_ignore_every_pod
    (dec : string → result core.Pod) (m : PodMutator) (ar : admission.AdmissionRequest)
    (pod : core.Pod) (k v : string) :
  IgnorePodsWithAnnotation k v ∈ ignore m →
  IgnorePodsWithoutAnnotation k v ∈ ignore m →
  admission.Resource ar = resourcePod →
  dec (admission.Object_Raw ar) = Ok pod →
  value (PodMutator_Review dec m ar) = Some allowedResponse ∧
  patched (trace (PodMutator_Review dec m ar)) = [].
Proof.
  intros Hw Hwo Hr Hd.
  assert (Exists (λ g : core.Pod → bool, g pod = true) (ignore m)) as Hex.
  { apply Exists_exists.
    destruct (IgnorePodsWithAnnotation k v pod) eqn:E; [by eauto|].
    exists (IgnorePodsWithoutAnnotation k v). split; [done|].
    unfold IgnorePodsWithAnnotation in E. unfold IgnorePodsWithoutAnnotation.
    apply bool_decide_eq_false in E. by apply bool_decide_eq_true. }
  rewrite Review_value, Review_patched.
  rewrite !(decide_True (P := admission.Resource ar = resourcePod)) by done.
  rewrite Hd. by rewrite !decide_True by done.
Qed.

Lemma contradictory_rules_ignore_every_pod_witness :
  value (PodMutator_Review decodeCool
           (NewPodMutator (predictablePatcher "coolpatch")
              [WithIgnoreFuncs (main_ignore_chain false [("team", "a")] [("team", "a")])])
           (podRequest "{}")) = Some allowedResponse.
Proof.
  apply (contradictory_rules_ignore_every_pod decodeCool
           (NewPodMutator (predictablePatcher "coolpatch")
              [WithIgnoreFuncs (main_ignore_chain false [("team", "a")] [("team", "a")])])
           (podRequest "{}") coolPod "team" "a"); try reflexivity.
  - cbn. left.
  - cbn. right. left.
Defined.

(** ** Options *)

(** X11: [NewPodMutator] keeps the Patcher it is given whatever options of
    the package follow; its ignore chain is the argument of the last
    [WithIgnoreFuncs] (an option replaces the chain, it does not extend
    it) and empty without one; its logger is that of the last
    [WithLogger], the no-op logger without one. *)
Theorem NewPodMutator_options (pt : Patcher) (os : list option_spec) :
  let m := NewPodMutator pt (option_of <$> os) in
  p m = pt ∧
  ignore m = default []
    (last (omap (λ o, match o with OptIgnoreFuncs fn => Some fn | _ => None end) os)) ∧
  l m = default zap_NewNop
    (last (omap (λ o, match o with OptLogger lg => Some lg | _ => None end) os)).
Proof.
  cbv zeta. unfold NewPodMutator.
  induction os as [|o os IH] using rev_ind; [done|].
  rewrite fmap_app, foldl_app, !omap_app. cbn [fmap list_fmap foldl].
  destruct IH as (Hp & Hi & Hl).
  destruct o; cbn; rewrite ?app_nil_r; repeat split; try done.
  - by rewrite last_snoc.
  - by rewrite last_snoc.
Qed.

(** ** The transport, end to end *)

Lemma reviews_ignore_events i n pod : reviews (ignore_events i n pod) = [].
Proof. unfold reviews, ignore_events. revert i. induction n; intros i; [done|]. cbn. auto. Qed.

Lemma Review_no_reviews
    (dec : string → result core.Pod) (m : PodMutator) (ar : admission.AdmissionRequest) :
  reviews (trace (PodMutator_Review dec m ar)) = [].
Proof.
  destruct (Review_cases dec m ar)
    as [Hr|(Hr & [(err & Hd)|(pod & Hd & [(n & f & Hf)|(Hf & [(err & Hp)|(b & Hp)])])])].
  - by rewrite Review_non_pod.
  - by rewrite (Review_undecodable _ _ _ err).
  - rewrite (Review_ignored _ _ _ pod n f) by done. cbn [trace]. unfold reviews.
    rewrite omap_app. fold (reviews (ignore_events 0 (S n) pod)).
    by rewrite reviews_ignore_events.
  - rewrite (Review_patch_error _ _ _ pod err) by done. cbn [trace]. unfold reviews.
    rewrite omap_app. fold (reviews (ignore_events 0 (length (ignore m)) pod)).
    by rewrite reviews_ignore_events.
  - rewrite (Review_mutated _ _ _ pod b) by done. cbn [trace]. unfold reviews.
    rewrite omap_app. fold (reviews (ignore_events 0 (length (ignore m)) pod)).
    by rewrite reviews_ignore_events.
Qed.

(** X12: the handler answers 200 or 400 and nothing else.  It answers 200
    exactly when the body could be read, is not empty, decodes, and holds
    a request: then the Reviewer is invoked on that request and the reply
    is the encoding of an envelope that holds its response and no
    request.  A body that cannot be read is answered 400 with the reader's
    error after the text [cannot read request body: ]; no 400 run invokes
    the Reviewer. *)
Theorem webhook_status
    (dec : string → result admission.AdmissionReview)
    (enc : admission.AdmissionReview → string) (r : Reviewer) (rq : http.Request) :
  let out := AdmissionReviewWebhook dec enc r rq in
  (http.StatusCode (value out) = 200 ∨ http.StatusCode (value out) = 400) ∧
  (http.StatusCode (value out) = 200 ↔
     ∃ b ar rq', http.Body rq = Ok b ∧ b ≠ EmptyString ∧ dec b = Ok ar ∧
                 admission.Request ar = Some rq') ∧
  (∀ b ar rq', http.Body rq = Ok b → b ≠ EmptyString → dec b = Ok ar →
     admission.Request ar = Some rq' →
     value out =
       {| http.StatusCode := 200;
          http.rBody := enc {| admission.Request := None;
                               admission.Response := value (Review r rq') |} |} ∧
     trace out = EvReview rq' :: trace (Review r rq')) ∧
  (∀ err, http.Body rq = Err err →
     value out = http.Error ("cannot read request body: " +:+ err) 400) ∧
  (http.StatusCode (value out) = 400 → trace out = []).
Proof.
  cbv zeta. unfold AdmissionReviewWebhook.
  destruct (http.Body rq) as [b|err] eqn:Hb.
  - destruct (decide (String.length b = 0)) as [Hl|Hl].
    + assert (b = EmptyString) as -> by (by destruct b).
      split_and!.
      * by right.
      * split; [done|]. intros (? & ? & ? & ? & ? & _). by simplify_eq.
      * intros ? ? ? ? ?. by simplify_eq.
      * intros ? ?. by simplify_eq.
      * done.
    + assert (b ≠ EmptyString) as Hne by (by intros ->).
      destruct (dec b) as [ar|err] eqn:Hd.
      * destruct (admission.Request ar) as [rq'|] eqn:Hq.
        -- split_and!.
           ++ by left.
           ++ split; [|done]. intros _. by exists b, ar, rq'.
           ++ intros b0 ar0 rq0 H0 _ H1 H2. injection H0 as <-.
              rewrite Hd in H1. injection H1 as <-.
              rewrite Hq in H2. injection H2 as <-.
              split; [reflexivity|]. cbn. f_equal. unfold mbind, Eff_bind. cbn. apply app_nil_r.
           ++ intros ? ?. by simplify_eq.
           ++ done.
        -- split_and!.
           ++ by right.
           ++ split; [done|]. intros (b0 & ar0 & rq0 & H0 & _ & H1 & H2).
              injection H0 as <-. rewrite Hd in H1. injection H1 as <-.
              by rewrite Hq in H2.
           ++ intros b0 ar0 rq0 H0 _ H1 H2.
              injection H0 as <-. rewrite Hd in H1. injection H1 as <-.
              by rewrite Hq in H2.
           ++ intros ? ?. by simplify_eq.
           ++ done.
      * split_and!.
        -- by right.
        -- split; [done|]. intros (b0 & ar0 & rq0 & H0 & _ & H1 & _).
           injection H0 as <-. by rewrite Hd in H1.
        -- intros b0 ar0 rq0 H0 _ H1 _.
           injection H0 as <-. by rewrite Hd in H1.
        -- intros ? ?. by simplify_eq.
        -- done.
  - split_and!.
    + by right.
    + split; [done|]. intros (? & ? & ? & ? & _). by simplify_eq.
    + intros ? ? ? ?. by simplify_eq.
    + intros ? ?. by simplify_eq.
    + done.
Qed.

(** ** The oldest revision of the reviewer against the current one *)

(** X14: [PodInjector.Review] and [PodMutator.Review], given the same
    logger, patcher and ignore chain, decide the same way: both respond,
    with the same verdict, patch and patch type, they evaluate the same
    predicates and hand the same pod to the patcher.  For a pod resource
    the failure status is the same too; for any other resource both refuse
    with reason Invalid, under different messages.  The old revision never
    echoes the UID, records no measurement, and logs nothing when it
    mutates. *)
Theorem Injector_Review_vs_PodMutator_Review
    (dec : string → result core.Pod) (i : Injector.PodInjector)
    (ar : admission.AdmissionRequest) :
  let m := {| l := Injector.l i; p := Injector.p i; ignore := Injector.ignore i |} in
  let old := Injector.Review dec i ar in
  let new := PodMutator_Review dec m ar in
  ∃ r r', value old = Some r ∧ value new = Some r' ∧
    admission.rUID r = EmptyString ∧
    admission.Allowed r = admission.Allowed r' ∧
    admission.Patch r = admission.Patch r' ∧
    admission.PatchType_ r = admission.PatchType_ r' ∧
    (admission.Resource ar = resourcePod → admission.Result r = admission.Result r') ∧
    (admission.Resource ar ≠ resourcePod →
       r = admissionError "not reviewing unexpected non-pod resource"
             meta.StatusReasonInvalid ∧
       r' = admissionError "cannot review non-pod resource" meta.StatusReasonInvalid) ∧
    patched (trace old) = patched (trace new) ∧
    ignores_evaluated (trace old) = ignores_evaluated (trace new) ∧
    records (trace old) = [] ∧
    (logs (trace old) = [] ↔ admission.PatchType_ r = Some jsonPatch).
Proof.
  cbv zeta. unfold Injector.Review, PodMutator_Review. cbn [l p ignore].
  destruct (decide (admission.Resource ar ≠ resourcePod)) as [Hr|Hr].
  { eexists _, _. split_and!; try reflexivity; try done. }
  destruct (dec (admission.Object_Raw ar)) as [pod|err] eqn:Hd.
  2:{ eexists _, _. split_and!; try reflexivity; try done. }
  rewrite !range_ignore_spec.
  destruct (first_match (Injector.ignore i) pod) as [[n f]|] eqn:Hf.
  { eexists _, _. cbn [value trace]. split_and!; try reflexivity; try done.
    - by rewrite !patched_app, !patched_ignore_events.
    - by rewrite !ignores_evaluated_app, !ignores_evaluated_ignore_events.
    - by rewrite !records_app, !records_ignore_events.
    - rewrite logs_app, logs_ignore_events. done. }
  destruct (Patch (Injector.p i) pod) as [b|err] eqn:Hp.
  - eexists _, _. cbn [value trace mbind Eff_bind emit mret]. split_and!; try reflexivity; try done.
    + by rewrite !patched_app, !patched_ignore_events.
    + by rewrite !ignores_evaluated_app, !ignores_evaluated_ignore_events.
    + by rewrite !records_app, !records_ignore_events.
    + rewrite logs_app, logs_ignore_events. done.
  - eexists _, _. cbn [value trace]. split_and!; try reflexivity; try done.
    + by rewrite !patched_app, !patched_ignore_events.
    + by rewrite !ignores_evaluated_app, !ignores_evaluated_ignore_events.
    + by rewrite !records_app, !records_ignore_events.
    + rewrite logs_app, logs_ignore_events. done.
Qed.

(** ** The handler over the pod reviewer *)

(** X13: served by a [PodMutator], every body that decodes to an envelope
    with a request is answered 200, whatever the review decides: a
    rejection travels in the envelope, not in the status.  The envelope
    always holds a response, the one [Review] gives for that request; the
    run reviews that request once and records one measurement, which
    carries the result of the review and, when [tag.New] accepts the kind,
    the namespace and the name of the request, the request's name. *)
Theorem webhook_over_PodMutator
    (decr : string → result admission.AdmissionReview)
    (enc : admission.AdmissionReview → string)
    (decp : string → result core.Pod) (m : PodMutator)
    (rq : http.Request) (b : string) (ar : admission.AdmissionReview)
    (rq' : admission.AdmissionRequest) :
  http.Body rq = Ok b → b ≠ EmptyString → decr b = Ok ar →
  admission.Request ar = Some rq' →
  let out := AdmissionReviewWebhook decr enc (PodMutator_Reviewer decp m) rq in
  ∃ rsp tags res,
    value (PodMutator_Review decp m rq') = Some rsp ∧
    value out = {| http.StatusCode := 200;
                   http.rBody := enc {| admission.Request := None;
                                        admission.Response := Some rsp |} |} ∧
    reviews (trace out) = [rq'] ∧
    records (trace out) = [tags] ∧
    tags !! TagResult = Some res ∧
    ((res = tagResultMutated ∧ allowed_with_patch rsp) ∨
     (res = tagResultIgnored ∧ allowed_unmodified rsp) ∨
     (res = tagResultError ∧ rejected rsp)) ∧
    (tags_accepted rq' = true → tags !! TagName = Some (admission.Name rq')) ∧
    patched (trace out) = patched (trace (PodMutator_Review decp m rq')).
Proof.
  intros Hb Hne Hd Hq. cbv zeta.
  destruct (Review_one_record decp m rq') as (rsp & res & Hv & Hrec & Hres).
  assert (checkValue res = true) as Hc
    by (by destruct Hres as [[-> _]|[[-> _]|[-> _]]]).
  destruct (review_tags_lookup rq' res Hc) as (Hl & Hacc & _).
  exists rsp, (review_tags rq' res), res. split; [done|].
  assert (AdmissionReviewWebhook decr enc (PodMutator_Reviewer decp m) rq =
          mkEff {| http.StatusCode := 200;
                   http.rBody := enc {| admission.Request := None;
                                        admission.Response := Some rsp |} |}
                (EvReview rq' :: trace (PodMutator_Review decp m rq'))) as ->.
  { unfold AdmissionReviewWebhook. rewrite Hb.
    rewrite decide_False by (by destruct b). rewrite Hd, Hq.
    unfold PodMutator_Reviewer. cbn [Review].
    destruct (PodMutator_Review decp m rq') as [v t]. cbn in Hv. subst v.
    unfold mbind, Eff_bind, emit, mret. cbn. by rewrite app_nil_r. }
  cbn [value trace]. split_and!; try done.
  - unfold reviews. cbn. fold (reviews (trace (PodMutator_Review decp m rq'))).
    by rewrite Review_no_reviews.
  - intros Ha. by destruct (Hacc Ha) as (_ & _ & _ & ?).
Qed.

Lemma webhook_over_PodMutator_witness :
  let body := dq "{'kind':'AdmissionReview','request':{'uid':'uid-2'}}" in
  let out := AdmissionReviewWebhook decodeReview encodeReview
               (PodMutator_Reviewer decodeCool (NewPodMutator (failingPatcher "boom") []))
               {| http.Body := Ok body |} in
  ∃ rsp tags res,
    value (PodMutator_Review decodeCool (NewPodMutator (failingPatcher "boom") [])
             (podRequest "{}")) = Some rsp ∧
    value out =
      {| http.StatusCode := 200;
         http.rBody := encodeReview {| admission.Request := None;
                                       admission.Response := Some rsp |} |} ∧
    reviews (trace out) = [podRequest "{}"] ∧
    records (trace out) = [tags] ∧
    tags !! TagResult = Some res ∧
    ((res = tagResultMutated ∧ allowed_with_patch rsp) ∨
     (res = tagResultIgnored ∧ allowed_unmodified rsp) ∨
     (res = tagResultError ∧ rejected rsp)) ∧
    (tags_accepted (podRequest "{}") = true →
       tags !! TagName = Some (admission.Name (podRequest "{}"))) ∧
    patched (trace out) =
    patched (trace (PodMutator_Review decodeCool (NewPodMutator (failingPatcher "boom") [])
             (podRequest "{}"))).
Proof.
  apply (webhook_over_PodMutator decodeReview encodeReview decodeCool
           (NewPodMutator (failingPatcher "boom") [])
           {| http.Body := Ok (dq "{'kind':'AdmissionReview','request':{'uid':'uid-2'}}") |}
           (dq "{'kind':'AdmissionReview','request':{'uid':'uid-2'}}")
           {| admission.Request := Some (podRequest "{}"); admission.Response := None |}
           (podRequest "{}")); [reflexivity|done|reflexivity|reflexivity].
Defined.
